(** Guided Langevin sampling for multicoil MRI reconstruction
    (samplers/guided_langevin.py): a shallow embedding of [guided_LD.sample]
    and [guided_LD.edit], and the properties of the sampler's schedule,
    update rule, gradient rescaling, shapes and post-processing. *)

From Stdlib Require Import List ZArith Lia Bool Arith Sorted.
From Stdlib Require Import Reals Lra.
Import ListNotations.

Set Implicit Arguments.

(** * Scalars

    Tensor entries and configuration floats are idealised: a finite entry is
    a real number (no rounding, no overflow), and [NaN] stands for every
    non-finite IEEE value.  It is absorbing for the arithmetic used by the
    sampler, and it is what a division by zero or the square root of a
    negative number yields. *)

Inductive fnum : Type :=
| Fin (r : R)
| NaN.

Definition fadd (a b : fnum) : fnum :=
  match a, b with Fin x, Fin y => Fin (x + y) | _, _ => NaN end.

Definition fsub (a b : fnum) : fnum :=
  match a, b with Fin x, Fin y => Fin (x - y) | _, _ => NaN end.

Definition fmul (a b : fnum) : fnum :=
  match a, b with Fin x, Fin y => Fin (x * y) | _, _ => NaN end.

Definition fdiv (a b : fnum) : fnum :=
  match a, b with
  | Fin x, Fin y => if Req_EM_T y 0 then NaN else Fin (x / y)
  | _, _ => NaN
  end.

(** [x ** 2] *)
Definition fsq (a : fnum) : fnum := fmul a a.

(** [np.sqrt] *)
Definition fsqrt (a : fnum) : fnum :=
  match a with
  | Fin x => if Rlt_dec x 0 then NaN else Fin (sqrt x)
  | NaN => NaN
  end.

Definition fsum (l : list fnum) : fnum := fold_right fadd (Fin 0) l.

(** Complex entries as Cartesian pairs. *)
Definition cplx : Type := (fnum * fnum)%type.

Definition cadd (a b : cplx) : cplx := (fadd (fst a) (fst b), fadd (snd a) (snd b)).
Definition csub (a b : cplx) : cplx := (fsub (fst a) (fst b), fsub (snd a) (snd b)).
Definition cmul (a b : cplx) : cplx :=
  (fsub (fmul (fst a) (fst b)) (fmul (snd a) (snd b)),
   fadd (fmul (fst a) (snd b)) (fmul (snd a) (fst b))).
Definition conj (a : cplx) : cplx := (fst a, fsub (Fin 0) (snd a)).
Definition csum (l : list cplx) : cplx := fold_right cadd (Fin 0, Fin 0) l.

(** * Exceptions and the effect monad *)

Inductive exn : Type :=
| ShapeError      (* RuntimeError: operands could not be broadcast, bad permute *)
| IndexError      (* index out of range *)
| ValueError      (* reduction over an empty array *)
| IOError         (* an image or font file could not be read or written *)
| CvError.        (* cv2.error: an array OpenCV does not accept *)

Inductive result (A : Type) : Type :=
| Ok (a : A)
| Raise (e : exn).
Arguments Raise {A} e.

Definition rbind {A B} (r : result A) (k : A -> result B) : result B :=
  match r with
  | Ok a => k a
  | Raise e => Raise e
  end.

Notation "x <-? r ;; k" := (rbind r (fun x => k))
  (at level 61, r at next level, right associativity).

(** * Tensors

    A tensor is its shape and its entries by multi-index. *)

Record tensor (A : Type) : Type := Tensor {
  shape : list nat;
  at_ : list nat -> A
}.

(** All multi-indices of a shape, in row-major order. *)
Fixpoint indices (s : list nat) : list (list nat) :=
  match s with
  | [] => [[]]
  | d :: s' => flat_map (fun i => map (cons i) (indices s')) (seq 0 d)
  end.

Definition tmap {A B} (f : A -> B) (t : tensor A) : tensor B :=
  Tensor (shape t) (fun i => f (at_ t i)).

(** Broadcasting (right-aligned; two sizes are compatible when they are equal
    or one of them is 1).  Shapes are handled reversed. *)
Fixpoint broadcast_rev (a b : list nat) : option (list nat) :=
  match a, b with
  | [], _ => Some b
  | _, [] => Some a
  | x :: a', y :: b' =>
      match broadcast_rev a' b' with
      | None => None
      | Some r =>
          if Nat.eqb x y then Some (x :: r)
          else if Nat.eqb x 1 then Some (y :: r)
          else if Nat.eqb y 1 then Some (x :: r)
          else None
      end
  end.

Definition broadcast_shapes (a b : list nat) : option (list nat) :=
  option_map (@rev nat) (broadcast_rev (rev a) (rev b)).

(** The index into an operand of shape [s] for the index [i] of the
    broadcast result: the trailing [length s] positions, frozen at 0 where
    the operand has size 1. *)
Fixpoint bidx_rev (s i : list nat) : list nat :=
  match s, i with
  | d :: s', k :: i' => (if Nat.eqb d 1 then 0 else k) :: bidx_rev s' i'
  | _, _ => []
  end.

Definition bidx (s i : list nat) : list nat := rev (bidx_rev (rev s) (rev i)).

Definition tzip {A B C} (f : A -> B -> C) (a : tensor A) (b : tensor B)
  : result (tensor C) :=
  match broadcast_shapes (shape a) (shape b) with
  | Some s => Ok (Tensor s (fun i => f (at_ a (bidx (shape a) i)) (at_ b (bidx (shape b) i))))
  | None => Raise ShapeError
  end.

(** [torch.norm]: the 2-norm over all entries. *)
Definition norm (t : tensor fnum) : fnum :=
  fsqrt (fsum (map (fun i => fsq (at_ t i)) (indices (shape t)))).

(** [x[:, c]] *)
Definition select1 {A} (c : nat) (t : tensor A) : result (tensor A) :=
  match shape t with
  | d0 :: d1 :: rest =>
      if Nat.ltb c d1
      then Ok (Tensor (d0 :: rest)
                 (fun i => match i with
                           | i0 :: r => at_ t (i0 :: c :: r)
                           | [] => at_ t []
                           end))
      else Raise IndexError
  | _ => Raise IndexError
  end.

(** [torch.sum(t, axis=1)] on a complex tensor *)
Definition sum_axis1 (t : tensor cplx) : result (tensor cplx) :=
  match shape t with
  | d0 :: d1 :: rest =>
      Ok (Tensor (d0 :: rest)
            (fun i => match i with
                      | i0 :: r => csum (map (fun k => at_ t (i0 :: k :: r)) (seq 0 d1))
                      | [] => (Fin 0, Fin 0)
                      end))
  | _ => Raise IndexError
  end.

(** [torch.view_as_real]: a trailing axis of size 2 holding (re, im). *)
Definition view_as_real (t : tensor cplx) : tensor fnum :=
  Tensor (shape t ++ [2])
    (fun i => let c := last i 0 in
              let z := at_ t (removelast i) in
              if Nat.eqb c 0 then fst z else snd z).

(** [t.permute(0, 3, 1, 2)] *)
Definition permute_0312 {A} (t : tensor A) : result (tensor A) :=
  match shape t with
  | [s0; s1; s2; s3] =>
      Ok (Tensor [s0; s3; s1; s2]
            (fun i => match i with
                      | [i0; i1; i2; i3] => at_ t [i0; i2; i3; i1]
                      | _ => at_ t i
                      end))
  | _ => Raise ShapeError
  end.

(** Scalar operands: [t / c], [t * c] with [c] a 0-dimensional tensor or a
    Python float. *)
Definition tdivs (t : tensor fnum) (c : fnum) : tensor fnum := tmap (fun x => fdiv x c) t.
Definition tmuls (t : tensor fnum) (c : fnum) : tensor fnum := tmap (fun x => fmul x c) t.
Definition smult (c : fnum) (t : tensor fnum) : tensor fnum := tmap (fun x => fmul c x) t.

(** [t.shape[0]] *)
Definition shape0 {A} (t : tensor A) : result nat :=
  match shape t with
  | d0 :: _ => Ok d0
  | [] => Raise IndexError
  end.

(** [range(n)] *)
Definition range (n : Z) : list Z := map Z.of_nat (seq 0 (Z.to_nat n)).

(** [a[k]] for a numpy array and a non-negative [k], and [a[-1]]. *)
Definition index {A} (a : list A) (k : Z) : result A :=
  if (k <? 0)%Z then Raise IndexError
  else match nth_error a (Z.to_nat k) with
       | Some x => Ok x
       | None => Raise IndexError
       end.

Definition index_last {A} (a : list A) : result A :=
  match rev a with
  | x :: _ => Ok x
  | [] => Raise IndexError
  end.

(** * The world the sampler acts on *)

Inductive file : Type :=
| OrigJpg (slice_idx : Z)      (* <anatomy>_<slice_idx>_or.jpg *)
| ReconJpg (slice_idx : Z)     (* <anatomy>_<slice_idx>.jpg *)
| StatsJson (ssim psnr : list fnum).   (* stats.json and what it holds *)

Record world : Type := World {
  rng : nat;                                        (* draws taken from the random stream *)
  score_calls : list (tensor fnum * tensor Z);      (* arguments of each score query *)
  info_log : list (nat * Z);                        (* 'Batch: idx - Step: step' lines *)
  ssim_scores : list fnum;
  psnr_scores : list fnum;
  files : list file                                 (* files written, oldest first *)
}.

Definition draw (w : world) : world :=
  World (S (rng w)) (score_calls w) (info_log w) (ssim_scores w) (psnr_scores w) (files w).

Definition record_call (c : tensor fnum * tensor Z) (w : world) : world :=
  World (rng w) (score_calls w ++ [c]) (info_log w) (ssim_scores w) (psnr_scores w) (files w).

Definition record_info (l : nat * Z) (w : world) : world :=
  World (rng w) (score_calls w) (info_log w ++ [l]) (ssim_scores w) (psnr_scores w) (files w).

Definition record_scores (ssim_score psnr_score : fnum) (w : world) : world :=
  World (rng w) (score_calls w) (info_log w)
        (ssim_scores w ++ [ssim_score]) (psnr_scores w ++ [psnr_score]) (files w).

Definition record_file (f : file) (w : world) : world :=
  World (rng w) (score_calls w) (info_log w) (ssim_scores w) (psnr_scores w) (files w ++ [f]).

Definition M (A : Type) : Type := world -> result A * world.

Definition ret {A} (a : A) : M A := fun w => (Ok a, w).

Definition bind {A B} (m : M A) (k : A -> M B) : M B :=
  fun w => match m w with
           | (Ok a, w') => k a w'
           | (Raise e, w') => (Raise e, w')
           end.

Definition lift {A} (r : result A) : M A := fun w => (r, w).

Notation "x <- m ;; k" := (bind m (fun x => k))
  (at level 61, m at next level, right associativity).

(** [for x in l: s = body(x, s)] *)
Fixpoint for_ {A S} (l : list A) (body : A -> S -> M S) (s : S) : M S :=
  match l with
  | [] => ret s
  | x :: l' => s' <- body x s ;; for_ l' body s'
  end.

(** * Configuration, batches and collaborators *)

Record config : Type := Config {
  num_classes : Z;        (* config.model.num_classes *)
  start_iter : Z;         (* config.sampling.start_iter *)
  n_steps_each : Z;       (* config.sampling.n_steps_each *)
  step_lr : fnum;         (* config.sampling.step_lr *)
  mse : fnum;             (* config.sampling.mse *)
  batch_size : nat;
  image_size : nat * nat;
  denoise_005 : bool;
  circle_mask : bool;
  save_images : bool      (* args.save_images *)
}.

(** One item of the data loader. *)
Record batch : Type := Batch {
  ground_truth : tensor cplx;
  mvue : tensor cplx;
  maps : tensor cplx;
  mask : tensor fnum;
  slice_idx : list Z
}.

(** What [sample] calls and does not define: the score network, the
    multicoil forward operator and the inverse FFT of datasets.utils, the
    MVUE estimate, the noise schedule of models.get_sigmas, the random
    stream of torch.randn, the image libraries and the file system. *)
Record collaborators : Type := Collaborators {
  score : tensor fnum -> tensor Z -> tensor fnum;
  forward_mri : tensor cplx -> tensor cplx -> tensor fnum -> tensor cplx;
  ifft : tensor cplx -> tensor cplx;
  get_mvue : tensor cplx -> tensor cplx -> tensor cplx;
  scaling : tensor cplx -> fnum;      (* the factor of normalize / unnormalize *)
  sigmas : list fnum;
  gauss : nat -> list nat -> fnum;    (* entry [i] of the k-th draw *)
  (* The reshaping of lines 100-108 is not unfolded: slice [i] of the
     magnitude image of the rescaled candidate, and of the reference [mvue];
     either may raise. *)
  magnitude_image : tensor fnum -> nat -> result (tensor fnum);
  reference_image : tensor cplx -> nat -> result (tensor fnum);
  astype_uint8 : fnum -> Z;           (* numpy's cast to np.uint8 *)
  (* the pixels (x, y) that cv2.circle(img, center, radius, color, -1) paints *)
  cv2_circle : Z * Z -> Z -> Z -> Z -> bool;
  ssim : tensor Z -> tensor Z -> fnum;
  psnr : tensor Z -> tensor Z -> fnum;
  writable : file -> bool;            (* whether writing this file succeeds *)
  font_available : bool               (* whether ImageFont.truetype finds its file *)
}.

Section Sampler.

Variable E : collaborators.
Variable cfg : config.

(** Modelled from the spec: [normalize] of [datasets.utils] is not among
    the sources.  The spec has it take the candidate to measurement scale,
    with the batch's estimated reference as the scale anchor: a scaling by
    a factor derived from the estimated reference; [scaling] is that
    factor. *)
Definition normalize (x : tensor fnum) (estimated_mvue : tensor cplx) : tensor fnum :=
  tmuls x (scaling E estimated_mvue).

(** Modelled from the spec: [unnormalize] of [datasets.utils] is not among
    the sources.  The spec has it undo the scaling normalization with the
    same estimated reference: the division by the factor of [normalize]. *)
Definition unnormalize (x : tensor fnum) (estimated_mvue : tensor cplx) : tensor fnum :=
  tdivs x (scaling E estimated_mvue).

(** [torch.randn(s)]: the next draw of the stream. *)
Definition randn (s : list nat) : M (tensor fnum) :=
  fun w => (Ok (Tensor s (gauss E (rng w))), draw w).

(** [score(xt, labels)] *)
Definition call_score (xt : tensor fnum) (labels : tensor Z) : M (tensor fnum) :=
  fun w => (Ok (score E xt labels), record_call (xt, labels) w).

(** [logging.info(f'Batch: {idx} - Step: {step}')] *)
Definition log_info (idx : nat) (step : Z) : M unit :=
  fun w => (Ok tt, record_info (idx, step) w).

(** [forward_operator]: the lambda of lines 62-64. *)
Definition forward_operator (X : batch) (x : tensor fnum) : result (tensor cplx) :=
  re <-? select1 0 x ;;
  im <-? select1 1 x ;;
  img <-? tzip (fun a b => (a, b)) re im ;;
  Ok (forward_mri E img (maps X) (mask X)).

(** Lines 88-92: the data-consistency gradient before any rescaling. *)
Definition raw_meas_grad (X : batch) (estimated_mvue : tensor cplx) (xt : tensor fnum)
  : result (tensor fnum) :=
  meas <-? forward_operator X (normalize xt estimated_mvue) ;;
  residual <-? tzip csub meas (ground_truth X) ;;
  coils <-? tzip cmul (ifft E residual) (tmap conj (maps X)) ;;
  img <-? sum_axis1 coils ;;
  g <-? permute_0312 (view_as_real img) ;;
  Ok (unnormalize g estimated_mvue).

(** Lines 93-94: [meas_grad /= torch.norm(meas_grad)] then
    [meas_grad *= torch.norm(p_grad)]. *)
Definition match_norm (meas_grad p_grad : tensor fnum) : tensor fnum :=
  tmuls (tdivs meas_grad (norm meas_grad)) (norm p_grad).

(** Lines 93-95. *)
Definition rescale_meas_grad (meas_grad p_grad : tensor fnum) : tensor fnum :=
  tmuls (match_norm meas_grad p_grad) (mse cfg).

(** Line 97: [xt + step_size * (p_grad - meas_grad) + noise]. *)
Definition langevin_formula (xt : tensor fnum) (step_size : fnum)
    (p_grad meas_grad noise : tensor fnum) : result (tensor fnum) :=
  d <-? tzip fsub p_grad meas_grad ;;
  u <-? tzip fadd xt (smult step_size d) ;;
  tzip fadd u noise.

(** Lines 85-97: one inner iteration. *)
Definition langevin_update (X : batch) (estimated_mvue : tensor cplx)
    (labels : tensor Z) (step_size : fnum) (xt : tensor fnum) : M (tensor fnum) :=
  z <- randn (shape xt) ;;
  let noise := tmuls z (fsqrt (fmul step_size (Fin 2))) in
  p_grad <- call_score xt labels ;;
  meas_grad <- lift (raw_meas_grad X estimated_mvue xt) ;;
  lift (langevin_formula xt step_size p_grad (rescale_meas_grad meas_grad p_grad) noise).

(** Line 82. *)
Definition step_size_of (sigma sigma_last : fnum) : fnum :=
  fmul (step_lr cfg) (fsq (fdiv sigma sigma_last)).

(** Lines 80 and 82: the step size of outer step [step]. *)
Definition step_size_at (step : Z) : result fnum :=
  sigma <-? index (sigmas E) step ;;
  sigma_last <-? index_last (sigmas E) ;;
  Ok (step_size_of sigma sigma_last).

(** Lines 51-52. *)
Definition timesteps : Z := (num_classes cfg - start_iter cfg + 1)%Z.
Definition log_interval : Z := if (timesteps <? 5)%Z then 1%Z else (timesteps / 5)%Z.

(** Lines 72-75. *)
Definition inner_count (step : Z) : Z :=
  if (step <=? 1800)%Z then 3%Z else n_steps_each cfg.

(** Lines 69-71: the steps of [range(num_classes)] that are not skipped. *)
Definition outer_steps : list Z :=
  filter (fun step => negb (step <=? start_iter cfg)%Z) (range (num_classes cfg)).

(** Line 81: [(torch.ones(n) * step).long()] *)
Definition labels_of (n : nat) (step : Z) : tensor Z := Tensor [n] (fun _ => step).

(** Lines 72-97: an outer step that is not skipped. *)
Definition step_body (idx : nat) (X : batch) (estimated_mvue : tensor cplx)
    (step : Z) (xt : tensor fnum) : M (tensor fnum) :=
  _ <- (if (step mod log_interval =? 0)%Z then log_info idx step else ret tt) ;;
  sigma <- lift (index (sigmas E) step) ;;
  d0 <- lift (shape0 xt) ;;
  let labels := labels_of d0 step in
  sigma_last <- lift (index_last (sigmas E)) ;;
  let step_size := step_size_of sigma sigma_last in
  for_ (range (inner_count step))
       (fun _ => langevin_update X estimated_mvue labels step_size) xt.

(** Lines 70-97: the body of the outer loop. *)
Definition outer_body (idx : nat) (X : batch) (estimated_mvue : tensor cplx)
    (step : Z) (xt : tensor fnum) : M (tensor fnum) :=
  if (step <=? start_iter cfg)%Z then ret xt
  else step_body idx X estimated_mvue step xt.

(** Lines 69-97. *)
Definition annealing_loop (idx : nat) (X : batch) (estimated_mvue : tensor cplx)
    (xt : tensor fnum) : M (tensor fnum) :=
  for_ (range (num_classes cfg)) (outer_body idx X estimated_mvue) xt.

Definition estimated_mvue_of (X : batch) : tensor cplx :=
  get_mvue E (ground_truth X) (maps X).

Definition xt_shape : list nat :=
  [batch_size cfg; 2; fst (image_size cfg); snd (image_size cfg)].

(** Lines 56-99: a batch from the initial draw to the rescaled candidate. *)
Definition sample_batch (idx : nat) (X : batch) : M (tensor fnum) :=
  let estimated_mvue := estimated_mvue_of X in
  xt <- randn xt_shape ;;
  xt <- annealing_loop idx X estimated_mvue xt ;;
  ret (normalize xt estimated_mvue).

(** * Post-processing (lines 105-134 and [edit]) *)

Definition fle (a b : fnum) : bool :=
  match a, b with
  | Fin x, Fin y => if Rle_dec x y then true else false
  | _, _ => false
  end.

Definition fmax (a b : fnum) : fnum :=
  match a, b with Fin x, Fin y => Fin (Rmax x y) | _, _ => NaN end.

(** [torch.max(t)], [a.max()] *)
Definition tmax (t : tensor fnum) : result fnum :=
  match map (at_ t) (indices (shape t)) with
  | [] => Raise ValueError
  | x :: l => Ok (fold_left fmax l x)
  end.

(** [t[t <= c] = 0] *)
Definition threshold (t : tensor fnum) (c : fnum) : tensor fnum :=
  tmap (fun x => if fle x c then Fin 0 else x) t.

(** [t.squeeze()]: axes of size 1 are dropped. *)
Fixpoint unsqueeze_index (s i : list nat) : list nat :=
  match s with
  | [] => []
  | d :: s' =>
      if Nat.eqb d 1 then 0 :: unsqueeze_index s' i
      else match i with
           | k :: i' => k :: unsqueeze_index s' i'
           | [] => []
           end
  end.

Definition squeeze {A} (t : tensor A) : tensor A :=
  Tensor (filter (fun d => negb (Nat.eqb d 1)) (shape t))
         (fun i => at_ t (unsqueeze_index (shape t) i)).

(** Lines 142-144 and 145-147: to an 8-bit image. *)
Definition to_uint8 (img : tensor fnum) : result (tensor Z) :=
  let a := squeeze img in
  m <-? tmax a ;;
  Ok (tmap (astype_uint8 E) (tmuls a (fdiv (Fin 255) m))).

(** Lines 150-151: a zero image of the same shape with the filled circle
    painted in 255.  Pixel [(x, y)] is entry [[y; x]]. *)
Definition circle_mask_image (s : list nat) : tensor Z :=
  Tensor s (fun i => match i with
                     | [y; x] =>
                         if cv2_circle E (192, 192)%Z 165%Z (Z.of_nat x) (Z.of_nat y)
                         then 255%Z else 0%Z
                     | _ => 0%Z
                     end).

(** [cv2.bitwise_and(src1, src2, mask=mask)] into a fresh destination. *)
Definition bitwise_and (src1 src2 mask_ : tensor Z) : tensor Z :=
  Tensor (shape src1)
         (fun i => if Z.eqb (at_ mask_ i) 0 then 0%Z
                   else Z.land (at_ src1 i) (at_ src2 i)).

(** Lines 149-152: the pixels of the masking step, for an image that
    [cv2] accepts; [edit] below raises for the others. *)
Definition mask_stage (recon_np : tensor Z) : tensor Z :=
  if circle_mask cfg
  then bitwise_and recon_np recon_np (circle_mask_image (shape recon_np))
  else recon_np.

(** Lines 150-152 accept an image of at most two axes, and an array of
    three axes or more ends in [cv2.error]: [cv2.circle] takes a third axis
    for the channels, or refuses the array, and [cv2.bitwise_and] refuses a
    mask that is not single-channel. *)
Definition cv2_accepts (recon_np : tensor Z) : bool :=
  negb (circle_mask cfg) || Nat.leb (length (shape recon_np)) 2.

Definition edit (orig_img recon_img : tensor fnum)
  : result (tensor fnum * tensor fnum * tensor Z * tensor Z) :=
  imgs <-? (if denoise_005 cfg
            then m <-? tmax orig_img ;;
                 let recon_img' := threshold recon_img (fmul (Fin (5 / 100)) m) in
                 m' <-? tmax orig_img ;;
                 Ok (threshold orig_img (fmul (Fin (5 / 100)) m'), recon_img')
            else Ok (orig_img, recon_img)) ;;
  orig_np <-? to_uint8 (fst imgs) ;;
  recon_np <-? to_uint8 (snd imgs) ;;
  if cv2_accepts recon_np
  then Ok (fst imgs, snd imgs, orig_np, mask_stage recon_np)
  else Raise CvError.

(** Lines 113-114. *)
Definition append_scores (ssim_score psnr_score : fnum) : M unit :=
  fun w => (Ok tt, record_scores ssim_score psnr_score w).

(** Writing a file: it appears in the world, or the write raises. *)
Definition write_file (f : file) : M unit :=
  fun w => if writable E f then (Ok tt, record_file f w) else (Raise IOError, w).

(** [ImageFont.truetype(<fixed path>, 16)] *)
Definition load_font : M unit :=
  fun w => if font_available E then (Ok tt, w) else (Raise IOError, w).

(** Lines 116-129. *)
Definition save_slice (X : batch) (i : nat) : M unit :=
  if save_images cfg
  then
    slice <- lift (index (slice_idx X) (Z.of_nat i)) ;;
    _ <- write_file (OrigJpg slice) ;;
    _ <- load_font ;;
    write_file (ReconJpg slice)
  else ret tt.

(** Lines 107-129: the body of the loop over the batch. *)
Definition process_slice (X : batch) (xt : tensor fnum) (i : nat) (_ : unit) : M unit :=
  recon_img <- lift (magnitude_image E xt i) ;;
  orig_img <- lift (reference_image E (mvue X) i) ;;
  edited <- lift (edit orig_img recon_img) ;;
  let orig_np := snd (fst edited) in
  let recon_np := snd edited in
  _ <- append_scores (ssim E orig_np recon_np) (psnr E orig_np recon_np) ;;
  save_slice X i.

(** Lines 54-129: the body of the loop over the data loader. *)
Definition process_batch (idx : nat) (X : batch) (_ : unit) : M unit :=
  xt <- sample_batch idx X ;;
  for_ (seq 0 (batch_size cfg)) (process_slice X xt) tt.

(** Lines 131-134. *)
Definition write_stats : M unit :=
  fun w => write_file (StatsJson (ssim_scores w) (psnr_scores w)) w.

(** [enumerate(dataloader)] *)
Definition enumerate {A} (l : list A) : list (nat * A) := combine (seq 0 (length l)) l.

(** Lines 50-134 of [sample], over the batches of the data loader. *)
Definition sample (dataloader : list batch) : M unit :=
  _ <- for_ (enumerate dataloader) (fun p => process_batch (fst p) (snd p)) tt ;;
  write_stats.

End Sampler.

(** * Vocabulary of the properties *)

Definition val (a : fnum) : R := match a with Fin r => r | NaN => 0%R end.

Definition Rsum (l : list R) : R := fold_right Rplus 0%R l.

(** The entries of a tensor, in index order. *)
Definition entries {A} (t : tensor A) : list A := map (at_ t) (indices (shape t)).

(** Every entry is non-finite. *)
Definition all_nan (t : tensor fnum) : Prop := forall i, at_ t i = NaN.

(** What the sampling of a batch does to the world: [k] draws, the score
    queries [calls], and nothing to the metrics and the files. *)
Definition extends (w w' : world) (k : nat) (calls : list (tensor fnum * tensor Z)) : Prop :=
  rng w' = (rng w + k)%nat /\
  score_calls w' = score_calls w ++ calls /\
  ssim_scores w' = ssim_scores w /\
  psnr_scores w' = psnr_scores w /\
  files w' = files w.

(** No stats.json among the files written so far. *)
Definition no_stats (w : world) : Prop := forall s p, ~ In (StatsJson s p) (files w).

(** A computation keeps an invariant of the world, whether it returns or
    raises. *)
Definition keeps (I : world -> Prop) {A} (m : M A) : Prop :=
  forall w r w', I w -> m w = (r, w') -> I w'.

Section Traces.

Variable E : collaborators.
Variable cfg : config.
Variable X : batch.

Let B := batch_size cfg.
Let H := fst (image_size cfg).
Let W := snd (image_size cfg).
Let est := estimated_mvue_of E X.

(** The contracts of the collaborators for a batch with [C] coils: the
    score network returns a gradient of the candidate's shape, the data
    loader supplies [batch, coils, H, W] maps and k-space, the forward
    operator and the inverse FFT keep to it, and the schedule has one sigma
    per timestep. *)
Record well_shaped (C : nat) : Prop := {
  ws_score : forall x l, shape x = xt_shape cfg -> shape (score E x l) = xt_shape cfg;
  ws_maps : shape (maps X) = [B; C; H; W];
  ws_ref : shape (ground_truth X) = [B; C; H; W];
  ws_forward : forall img, shape img = [B; H; W] ->
                           shape (forward_mri E img (maps X) (mask X)) = [B; C; H; W];
  ws_ifft : forall t, shape (ifft E t) = shape t;
  ws_sigmas : Z.of_nat (length (sigmas E)) = num_classes cfg
}.

(** One inner iteration at outer step [step], with draw number [k] of the
    random stream, takes the candidate [x] to [x']. *)
Definition iteration (step : Z) (k : nat) (x x' : tensor fnum) : Prop :=
  exists step_size meas_grad,
    step_size_at E cfg step = Ok step_size /\
    raw_meas_grad E X est x = Ok meas_grad /\
    let p_grad := score E x (labels_of B step) in
    let noise := tmuls (Tensor (shape x) (gauss E k)) (fsqrt (fmul step_size (Fin 2))) in
    langevin_formula x step_size p_grad (rescale_meas_grad cfg meas_grad p_grad) noise
    = Ok x'.

(** A run of inner iterations: [tr] lists the outer step and the candidate
    each iteration started from, from [x] with draw number [k] to [xend]. *)
Fixpoint chain (k : nat) (x : tensor fnum) (tr : list (Z * tensor fnum))
    (xend : tensor fnum) : Prop :=
  match tr with
  | [] => x = xend
  | (step, y) :: tr' =>
      y = x /\ exists x', iteration step k x x' /\ chain (S k) x' tr' xend
  end.

(** The outer step of every inner iteration, in order. *)
Definition schedule : list Z :=
  flat_map (fun step => repeat step (Z.to_nat (inner_count cfg step))) (outer_steps cfg).

Definition calls_of (tr : list (Z * tensor fnum)) : list (tensor fnum * tensor Z) :=
  map (fun p => (snd p, labels_of B (fst p))) tr.

(** The inner iterations of the outer loop run over the steps [l]. *)
Definition sched (l : list Z) : list Z :=
  flat_map (fun step => if (step <=? start_iter cfg)%Z then []
                        else repeat step (Z.to_nat (inner_count cfg step))) l.

(** The first candidate of a batch sampled from the world [w]. *)
Definition initial_candidate (w : world) : tensor fnum :=
  Tensor (xt_shape cfg) (gauss E (rng w)).

End Traces.

(** * A small scenario

    Stub collaborators in the manner of the end-to-end scenario: a score
    network that returns zero gradients, a forward operator without a Fourier
    transform (coil images times the sampling mask), a constant random
    stream, the ideal disc for [cv2.circle] and a file system that refuses
    the files [wr] rejects. *)

Definition zero_score (x : tensor fnum) (_ : tensor Z) : tensor fnum :=
  tmap (fun _ => Fin 0) x.

Definition masked_coils (img maps_ : tensor cplx) (mask_ : tensor fnum) : tensor cplx :=
  Tensor (shape maps_)
         (fun i => match i with
                   | b :: _ :: r =>
                       let z := cmul (at_ img (b :: r)) (at_ maps_ i) in
                       (fmul (fst z) (at_ mask_ i), fmul (snd z) (at_ mask_ i))
                   | _ => (Fin 0, Fin 0)
                   end).

Definition disc (c : Z * Z) (r x y : Z) : bool :=
  ((x - fst c) * (x - fst c) + (y - snd c) * (y - snd c) <=? r * r)%Z.

Definition unit_image : tensor fnum := Tensor [1; 1]%nat (fun _ => Fin 1).

Definition sigmas10 : list R := [10; 9; 8; 7; 6; 5; 4; 3; 2; 1]%R.

Definition stub (wr : file -> bool) : collaborators :=
  {| score := zero_score;
     forward_mri := masked_coils;
     ifft := fun t => t;
     get_mvue := fun ref _ => ref;
     scaling := fun _ => Fin 2;
     sigmas := map Fin sigmas10;
     gauss := fun _ _ => Fin 1;
     magnitude_image := fun _ _ => Ok unit_image;
     reference_image := fun _ _ => Ok unit_image;
     astype_uint8 := fun _ => 0%Z;
     cv2_circle := disc;
     ssim := fun _ _ => Fin 1;
     psnr := fun _ _ => NaN;
     writable := wr;
     font_available := true |}.

Definition all_writable (_ : file) : bool := true.

Definition no_orig_jpg (f : file) : bool :=
  match f with OrigJpg _ => false | _ => true end.

(** [num_classes = 10], [start_iter = 5], [n_steps_each = 1],
    [step_lr = 1.0], [batch_size = 1]. *)
Definition scenario (lr : R) : config :=
  {| num_classes := 10; start_iter := 5; n_steps_each := 1;
     step_lr := Fin lr; mse := Fin 1;
     batch_size := 1; image_size := (1, 1)%nat;
     denoise_005 := false; circle_mask := true; save_images := true |}.

(** One coil with sensitivity 1, zero k-space, and a sampling mask that
    keeps nothing: the simulated k-space of every candidate is the ground
    truth. *)
Definition blank_batch : batch :=
  {| ground_truth := Tensor [1; 1; 1; 1]%nat (fun _ => (Fin 0, Fin 0));
     mvue := Tensor [1; 1; 1]%nat (fun _ => (Fin 0, Fin 0));
     maps := Tensor [1; 1; 1; 1]%nat (fun _ => (Fin 1, Fin 0));
     mask := Tensor [1; 1; 1; 1]%nat (fun _ => Fin 0);
     slice_idx := [0%Z] |}.

Definition fresh_world : world := World 0 [] [] [] [] [].


(** The same scenario on 8 x 8 images: the display images have shape
    [(1, 8, 8)], large enough for the 7 x 7 window of the SSIM. *)
Definition image8 : tensor fnum := Tensor [1; 8; 8]%nat (fun _ => Fin 1).

Definition stub8 (wr : file -> bool) : collaborators :=
  {| score := zero_score;
     forward_mri := masked_coils;
     ifft := fun t => t;
     get_mvue := fun ref _ => ref;
     scaling := fun _ => Fin 2;
     sigmas := map Fin sigmas10;
     gauss := fun _ _ => Fin 1;
     magnitude_image := fun _ _ => Ok image8;
     reference_image := fun _ _ => Ok image8;
     astype_uint8 := fun _ => 0%Z;
     cv2_circle := disc;
     ssim := fun _ _ => Fin 1;
     psnr := fun _ _ => NaN;
     writable := wr;
     font_available := true |}.

Definition scenario8 (lr : R) : config :=
  {| num_classes := 10; start_iter := 5; n_steps_each := 1;
     step_lr := Fin lr; mse := Fin 1;
     batch_size := 1; image_size := (8, 8)%nat;
     denoise_005 := false; circle_mask := true; save_images := true |}.

Definition blank_batch8 : batch :=
  {| ground_truth := Tensor [1; 1; 8; 8]%nat (fun _ => (Fin 0, Fin 0));
     mvue := Tensor [1; 1; 8; 8]%nat (fun _ => (Fin 0, Fin 0));
     maps := Tensor [1; 1; 8; 8]%nat (fun _ => (Fin 1, Fin 0));
     mask := Tensor [1; 1; 8; 8]%nat (fun _ => Fin 0);
     slice_idx := [0%Z] |}.


(** * The display images (lines 100-108) *)

(** [t.permute(0, 2, 3, 1)] *)
Definition permute_0231 {A} (t : tensor A) : result (tensor A) :=
  match shape t with
  | [s0; s1; s2; s3] =>
      Ok (Tensor [s0; s2; s3; s1]
            (fun i => match i with
                      | [i0; i1; i2; i3] => at_ t [i0; i3; i1; i2]
                      | _ => at_ t i
                      end))
  | _ => Raise ShapeError
  end.

(** The number of entries of a shape, and row-major offsets. *)
Definition numel (s : list nat) : nat := fold_right Nat.mul 1%nat s.

Fixpoint ravel (s i : list nat) : nat :=
  match s, i with
  | _ :: s', k :: i' => (k * numel s' + ravel s' i')%nat
  | _, _ => 0%nat
  end.

Fixpoint unravel (s : list nat) (n : nat) : list nat :=
  match s with
  | [] => []
  | _ :: s' => (n / numel s')%nat :: unravel s' (n mod numel s')
  end.

(** [t.reshape(-1, *rest)] *)
Definition reshape_m1 {A} (t : tensor A) (rest : list nat) : result (tensor A) :=
  let n := numel (shape t) in
  let r := numel rest in
  if Nat.eqb r 0 then Raise ShapeError
  else if Nat.eqb (n mod r) 0
       then let s := (n / r)%nat :: rest in
            Ok (Tensor s (fun i => at_ t (unravel (shape t) (ravel s i))))
       else Raise ShapeError.

(** [torch.view_as_complex]: the trailing axis of size 2 holds (re, im). *)
Definition view_as_complex (t : tensor fnum) : result (tensor cplx) :=
  match rev (shape t) with
  | 2%nat :: r => Ok (Tensor (rev r) (fun i => (at_ t (i ++ [0%nat]), at_ t (i ++ [1%nat]))))
  | _ => Raise ShapeError
  end.

(** [abs] of a complex entry. *)
Definition cabs (z : cplx) : fnum := fsqrt (fadd (fsq (fst z)) (fsq (snd z))).

(** [t.flip(-2)] *)
Definition flip_index (h : nat) (i : list nat) : list nat :=
  match rev i with
  | iw :: ih :: r => rev (iw :: (h - 1 - ih)%nat :: r)
  | _ => i
  end.

Definition flip_m2 {A} (t : tensor A) : result (tensor A) :=
  match rev (shape t) with
  | _ :: h :: _ => Ok (Tensor (shape t) (fun i => at_ t (flip_index h i)))
  | _ => Raise IndexError
  end.

(** [t[i]] *)
Definition select0 {A} (i : nat) (t : tensor A) : result (tensor A) :=
  match shape t with
  | d0 :: rest =>
      if Nat.ltb i d0 then Ok (Tensor rest (fun j => at_ t (i :: j)))
      else Raise IndexError
  | [] => Raise IndexError
  end.

(** [t.unsqueeze(dim=0)] *)
Definition unsqueeze0 {A} (t : tensor A) : tensor A :=
  Tensor (1%nat :: shape t) (fun i => at_ t (tl i)).

(** Lines 100-103. *)
Definition to_display (cfg : config) (xt : tensor fnum) : result (tensor fnum) :=
  p <-? permute_0231 xt ;;
  r <-? reshape_m1 p [fst (image_size cfg); snd (image_size cfg); 2%nat] ;;
  c <-? view_as_complex r ;;
  flip_m2 (tmap cabs c).

(** Lines 100-103 and 107: the image of slice [i]. *)
Definition recon_slice (cfg : config) (xt : tensor fnum) (i : nat) : result (tensor fnum) :=
  d <-? to_display cfg xt ;;
  s <-? select0 i d ;;
  Ok (unsqueeze0 s).


(** * [make_grid.py]: [edit] on 8-bit images *)

Module MakeGrid.

(** [torch.max(t)] of an 8-bit image. *)
Definition zmax (t : tensor Z) : result Z :=
  match map (at_ t) (indices (shape t)) with
  | [] => Raise ValueError
  | x :: l => Ok (fold_left Z.max l x)
  end.

(** [t[t <= 0.05 * m] = 0]: the comparison is made in floating point. *)
Definition threshold (t : tensor Z) (m : Z) : tensor Z :=
  tmap (fun x => if fle (Fin (IZR x)) (fmul (Fin (5 / 100)) (Fin (IZR m)))
                 then 0%Z else x) t.

(** Lines 14-25. *)
Definition edit (E : collaborators) (orig_img recon_img : tensor Z)
  : result (tensor Z * tensor Z * tensor Z * tensor Z) :=
  m <-? zmax orig_img ;;
  let recon_img' := threshold recon_img m in
  m' <-? zmax orig_img ;;
  let orig_img' := threshold orig_img m' in
  let orig_np := squeeze orig_img' in
  let recon_np := squeeze recon_img' in
  Ok (orig_img', recon_img', orig_np,
      bitwise_and recon_np recon_np (circle_mask_image E (shape recon_np))).

End MakeGrid.


(** * Further vocabulary *)

(** The inner iterations of a batch, counted from lines 69-75. *)
Definition query_count (cfg : config) : nat :=
  fold_right (fun step n => (Z.to_nat (inner_count cfg step) + n)%nat) 0%nat
             (outer_steps cfg).

(** Collaborators with another noise schedule, or without the font file. *)
Definition with_sigmas (E : collaborators) (sg : list fnum) : collaborators :=
  {| score := score E; forward_mri := forward_mri E; ifft := ifft E;
     get_mvue := get_mvue E; scaling := scaling E; sigmas := sg; gauss := gauss E;
     magnitude_image := magnitude_image E; reference_image := reference_image E;
     astype_uint8 := astype_uint8 E; cv2_circle := cv2_circle E;
     ssim := ssim E; psnr := psnr E; writable := writable E;
     font_available := font_available E |}.

Definition without_font (E : collaborators) : collaborators :=
  {| score := score E; forward_mri := forward_mri E; ifft := ifft E;
     get_mvue := get_mvue E; scaling := scaling E; sigmas := sigmas E; gauss := gauss E;
     magnitude_image := magnitude_image E; reference_image := reference_image E;
     astype_uint8 := astype_uint8 E; cv2_circle := cv2_circle E;
     ssim := ssim E; psnr := psnr E; writable := writable E;
     font_available := false |}.

(** A configuration with [save_images] switched off. *)
Definition without_images (cfg : config) : config :=
  {| num_classes := num_classes cfg; start_iter := start_iter cfg;
     n_steps_each := n_steps_each cfg; step_lr := step_lr cfg; mse := mse cfg;
     batch_size := batch_size cfg; image_size := image_size cfg;
     denoise_005 := denoise_005 cfg; circle_mask := circle_mask cfg;
     save_images := false |}.

(** A configuration with [denoise_005] switched on. *)
Definition with_denoise (cfg : config) : config :=
  {| num_classes := num_classes cfg; start_iter := start_iter cfg;
     n_steps_each := n_steps_each cfg; step_lr := step_lr cfg; mse := mse cfg;
     batch_size := batch_size cfg; image_size := image_size cfg;
     denoise_005 := true; circle_mask := circle_mask cfg;
     save_images := save_images cfg |}.

(** The outer steps at which a progress line is logged (line 77). *)
Definition logged_steps (cfg : config) : list Z :=
  filter (fun step => (step mod log_interval cfg =? 0)%Z) (outer_steps cfg).

(** A computation that returns has appended the lines [ls] to the log. *)
Definition logs (ls : list (nat * Z)) {A} (m : M A) : Prop :=
  forall w a w', m w = (Ok a, w') -> info_log w' = info_log w ++ ls.

(** No reconstruction image among the files written so far. *)
Definition no_recon (w : world) : Prop := forall s, ~ In (ReconJpg s) (files w).

(** A computation that returns has added [n] entries to the SSIM list. *)
Definition adds (n : nat) {A} (m : M A) : Prop :=
  forall w a w', m w = (Ok a, w') ->
                 length (ssim_scores w') = (length (ssim_scores w) + n)%nat.

(** * Facts about the scalars and the norm *)

Lemma fadd_nan_r a : fadd a NaN = NaN.
Proof. destruct a; reflexivity. Qed.

Lemma fsub_nan_r a : fsub a NaN = NaN.
Proof. destruct a; reflexivity. Qed.

Lemma fmul_nan_r a : fmul a NaN = NaN.
Proof. destruct a; reflexivity. Qed.

Lemma fdiv_zero a : fdiv a (Fin 0) = NaN.
Proof.
  destruct a; simpl; trivial.
  destruct (Req_EM_T 0 0) as [_|n]; [reflexivity | elim n; reflexivity].
Qed.

Lemma fdiv_fin x y : y <> 0%R -> fdiv (Fin x) (Fin y) = Fin (x / y).
Proof.
  intros Hy; simpl. destruct (Req_EM_T y 0); [contradiction | reflexivity].
Qed.



Lemma fsum_fin (l : list fnum) :
  Forall (fun a => a <> NaN) l -> fsum l = Fin (Rsum (map val l)).
Proof.
  induction 1 as [|a l Ha _ IH]; simpl; [reflexivity|].
  rewrite IH. destruct a; [reflexivity | contradiction].
Qed.


Lemma fsum_nan (l : list fnum) : In NaN l -> fsum l = NaN.
Proof.
  induction l as [|a l IH]; simpl; [tauto|].
  intros [->|H]; [reflexivity|]. rewrite (IH H). apply fadd_nan_r.
Qed.








Lemma entries_tmap {A B} (f : A -> B) t : entries (tmap f t) = map f (entries t).
Proof. unfold entries, tmap; simpl. now rewrite map_map. Qed.




(** * Indexing and ranges *)

Lemma in_range z n : In z (range n) <-> (0 <= z < n)%Z.
Proof.
  unfold range. rewrite in_map_iff. split.
  - intros (k & <- & Hk). apply in_seq in Hk. lia.
  - intros H. exists (Z.to_nat z). split; [lia|]. apply in_seq. lia.
Qed.

Lemma in_outer_steps cfg z :
  In z (outer_steps cfg) <-> (0 <= z < num_classes cfg /\ start_iter cfg < z)%Z.
Proof.
  unfold outer_steps. rewrite filter_In, in_range, negb_true_iff, Z.leb_gt. tauto.
Qed.

Lemma index_map_Fin (sg : list R) (k : Z) :
  (0 <= k < Z.of_nat (length sg))%Z ->
  index (map Fin sg) k = Ok (Fin (nth (Z.to_nat k) sg 0%R)).
Proof.
  intros H. unfold index.
  destruct (Z.ltb_spec k 0); [lia|].
  rewrite nth_error_map, (nth_error_nth' sg 0%R) by lia. reflexivity.
Qed.

Lemma index_last_map_Fin (sg : list R) :
  sg <> [] -> index_last (map Fin sg) = Ok (Fin (last sg 0%R)).
Proof.
  intros H. destruct (exists_last H) as (l & x & ->).
  unfold index_last. rewrite map_app, rev_app_distr, last_last. reflexivity.
Qed.

Lemma nth_last_R (sg : list R) : nth (length sg - 1) sg 0%R = last sg 0%R.
Proof.
  destruct sg as [|x l]; [reflexivity|].
  destruct (@exists_last _ (x :: l)) as (l' & y & E); [discriminate|].
  rewrite E, last_last, length_app. simpl.
  rewrite app_nth2 by lia.
  replace (length l' + 1 - 1 - length l')%nat with 0%nat by lia. reflexivity.
Qed.

(** ** C6 *)

(** C6 (as amended).  For a noise schedule of positive numbers, one per
    timestep, and a [step_lr] that is a number, the step size of every
    included step is [step_lr * (sigmas[step] / sigmas[-1]) ** 2].  It has
    the sign of [step_lr]: it is non-negative exactly when [step_lr] is.
    It is [step_lr] at the last timestep, and for a strictly decreasing
    schedule it is [step_lr] exactly when the step is the last timestep or
    [step_lr] is 0. *)
Theorem step_size_at_spec (E : collaborators) (cfg : config)
    (sg : list R) (lr : R) (step : Z) :
  sigmas E = map Fin sg ->
  Z.of_nat (length sg) = num_classes cfg ->
  Forall (fun x => 0 < x)%R sg ->
  step_lr cfg = Fin lr ->
  In step (outer_steps cfg) ->
  let sigma := nth (Z.to_nat step) sg 0%R in
  let sigma_last := last sg 0%R in
  let v := (lr * ((sigma / sigma_last) * (sigma / sigma_last)))%R in
  step_size_at E cfg step = Ok (Fin v) /\
  ((0 <= v)%R <-> (0 <= lr)%R) /\
  (step = (num_classes cfg - 1)%Z -> v = lr) /\
  ((forall i j, (i < j < length sg)%nat -> (nth j sg 0 < nth i sg 0)%R) ->
   (v = lr <-> step = (num_classes cfg - 1)%Z \/ lr = 0%R)).
Proof.
  intros Hs Hlen Hpos Hlr Hin sigma sigma_last v.
  apply in_outer_steps in Hin. destruct Hin as [Hrange Hstart].
  assert (Hne : sg <> []) by (intros ->; simpl in Hlen; lia).
  assert (Hlast : (0 < sigma_last)%R).
  { rewrite Forall_forall in Hpos. apply Hpos. unfold sigma_last.
    destruct (exists_last Hne) as (l & x & ->). rewrite last_last.
    apply in_or_app; right; left; reflexivity. }
  assert (Hsig : (0 < sigma)%R).
  { rewrite Forall_forall in Hpos. apply Hpos. apply nth_In. lia. }
  assert (Hq : (0 < sigma / sigma_last)%R) by (apply Rdiv_lt_0_compat; assumption).
  assert (HQ : (0 < sigma / sigma_last * (sigma / sigma_last))%R)
    by (apply Rmult_lt_0_compat; assumption).
  assert (Hend : step = (num_classes cfg - 1)%Z -> v = lr).
  { intros ->. unfold v, sigma.
    replace (Z.to_nat (num_classes cfg - 1)) with (length sg - 1)%nat by lia.
    rewrite nth_last_R. fold sigma_last. field. lra. }
  split; [|split; [|split]].
  - unfold step_size_at, step_size_of. rewrite Hs, Hlr.
    rewrite index_map_Fin by lia. rewrite index_last_map_Fin by assumption.
    simpl. fold sigma sigma_last.
    destruct (Req_EM_T sigma_last 0); [lra | reflexivity].
  - unfold v. set (Q := (sigma / sigma_last * (sigma / sigma_last))%R) in *.
    split; intros H; nra.
  - exact Hend.
  - intros Hdec. split.
    + intros Hv.
      destruct (Z.eq_dec step (num_classes cfg - 1)) as [|Hneq]; [now left|right].
      assert (Hlt : (sigma_last < sigma)%R).
      { unfold sigma_last, sigma. rewrite <- nth_last_R. apply Hdec. lia. }
      assert (Hq1 : (1 < sigma / sigma_last)%R).
      { apply (Rmult_lt_reg_r sigma_last); [assumption|].
        unfold Rdiv. rewrite Rmult_assoc, Rinv_l by lra. lra. }
      unfold v in Hv.
      set (Q := (sigma / sigma_last * (sigma / sigma_last))%R) in *.
      assert (Hsq : (1 < Q)%R) by (unfold Q; nra).
      nra.
    + intros [Heq | Hz]; [now apply Hend|].
      unfold v. rewrite Hz. ring.
Qed.

(** * Shapes *)

Lemma broadcast_rev_same (l : list nat) : broadcast_rev l l = Some l.
Proof.
  induction l as [|x l IH]; simpl; [reflexivity|].
  now rewrite IH, Nat.eqb_refl.
Qed.

Lemma broadcast_shapes_same (s : list nat) : broadcast_shapes s s = Some s.
Proof.
  unfold broadcast_shapes. rewrite broadcast_rev_same. simpl.
  now rewrite rev_involutive.
Qed.

Lemma tzip_same {A B C} (f : A -> B -> C) (a : tensor A) (b : tensor B) :
  shape a = shape b ->
  exists c, tzip f a b = Ok c /\ shape c = shape a /\
            forall i, at_ c i = f (at_ a (bidx (shape a) i)) (at_ b (bidx (shape b) i)).
Proof.
  intros H. unfold tzip. rewrite <- H, broadcast_shapes_same.
  eexists; repeat split.
Qed.

Section Run.

Variable E : collaborators.
Variable cfg : config.
Variable X : batch.

Let B := batch_size cfg.
Let H := fst (image_size cfg).
Let W := snd (image_size cfg).
Let est := estimated_mvue_of E X.

Lemma raw_meas_grad_shape C (x : tensor fnum) :
  well_shaped E cfg X C -> shape x = xt_shape cfg ->
  exists g, raw_meas_grad E X est x = Ok g /\ shape g = xt_shape cfg.
Proof.
  intros WS Hx. unfold raw_meas_grad, forward_operator, normalize, unnormalize.
  unfold select1. simpl shape. rewrite Hx. unfold xt_shape. simpl.
  unfold tzip at 1. simpl shape. rewrite broadcast_shapes_same. simpl.
  match goal with |- context [forward_mri E ?img _ _] => set (img0 := img) end.
  assert (Hm : shape (forward_mri E img0 (maps X) (mask X)) = [B; C; H; W])
    by (apply (ws_forward WS); reflexivity).
  unfold tzip at 1. rewrite Hm, (ws_ref WS), broadcast_shapes_same. simpl.
  match goal with |- context [ifft E ?r] => set (res := r) end.
  unfold tzip at 1. rewrite (ws_ifft WS). simpl shape.
  rewrite (ws_maps WS), broadcast_shapes_same. simpl.
  eexists; split; reflexivity.
Qed.

Lemma langevin_formula_shape (x p m noise : tensor fnum) (ss : fnum) :
  shape p = shape x -> shape m = shape x -> shape noise = shape x ->
  exists x', langevin_formula x ss p m noise = Ok x' /\ shape x' = shape x.
Proof.
  intros Hp Hm Hn. unfold langevin_formula.
  destruct (@tzip_same _ _ _ fsub p m) as (d & -> & Hd & _); [congruence|]. simpl.
  destruct (@tzip_same _ _ _ fadd x (smult ss d)) as (u & -> & Hu & _);
    [simpl; congruence|]. simpl.
  destruct (@tzip_same _ _ _ fadd u noise) as (v & -> & Hv & _); [congruence|].
  exists v; split; congruence.
Qed.

Lemma extends_refl w : extends w w 0 [].
Proof. unfold extends. rewrite Nat.add_0_r, app_nil_r. tauto. Qed.

Lemma extends_trans w1 w2 w3 k1 k2 c1 c2 :
  extends w1 w2 k1 c1 -> extends w2 w3 k2 c2 -> extends w1 w3 (k1 + k2) (c1 ++ c2).
Proof.
  unfold extends. intros (a1 & a2 & a3 & a4 & a5) (b1 & b2 & b3 & b4 & b5).
  rewrite b1, b2, b3, b4, b5, a1, a2, a3, a4, a5, app_assoc.
  repeat split; lia.
Qed.

Lemma chain_app k x tr1 y tr2 z :
  chain E cfg X k x tr1 y -> chain E cfg X (k + length tr1) y tr2 z -> chain E cfg X k x (tr1 ++ tr2) z.
Proof.
  revert k x. induction tr1 as [|[step x0] tr1 IH]; simpl; intros k x H1 H2.
  - subst. now rewrite Nat.add_0_r in H2.
  - destruct H1 as (-> & x' & Hit & Hc). split; [reflexivity|].
    exists x'. split; [assumption|]. apply IH; [assumption|].
    now rewrite Nat.add_succ_comm.
Qed.

(** One inner iteration under the contracts. *)
Lemma langevin_update_run C (step : Z) (ss : fnum) (x : tensor fnum) (w : world) :
  well_shaped E cfg X C -> shape x = xt_shape cfg ->
  step_size_at E cfg step = Ok ss ->
  exists x',
    langevin_update E cfg X est (labels_of B step) ss x w
    = (Ok x', record_call (x, labels_of B step) (draw w)) /\
    shape x' = xt_shape cfg /\
    iteration E cfg X step (rng w) x x'.
Proof.
  intros WS Hx Hss.
  destruct (raw_meas_grad_shape x WS Hx) as (g & Hg & Hgs).
  set (p := score E x (labels_of B step)).
  set (noise := tmuls (Tensor (shape x) (gauss E (rng w))) (fsqrt (fmul ss (Fin 2)))).
  destruct (@langevin_formula_shape x p (rescale_meas_grad cfg g p) noise ss)
    as (x' & Hf & Hs).
  - unfold p. rewrite (ws_score WS); congruence.
  - simpl. congruence.
  - reflexivity.
  - exists x'. split; [|split].
    + unfold langevin_update, bind, randn, call_score, lift. simpl.
      fold est. rewrite Hg. fold p noise. rewrite Hf. reflexivity.
    + congruence.
    + exists ss, g. repeat split; assumption.
Qed.

Lemma index_ok {A} (a : list A) (k : Z) :
  (0 <= k < Z.of_nat (length a))%Z -> exists v, index a k = Ok v.
Proof.
  intros Hk. unfold index. destruct (Z.ltb_spec k 0); [lia|].
  destruct (nth_error a (Z.to_nat k)) eqn:Hn; [eauto|].
  apply nth_error_None in Hn. lia.
Qed.

Lemma index_last_ok {A} (a : list A) : a <> [] -> exists v, index_last a = Ok v.
Proof.
  intros Ha. destruct (exists_last Ha) as (l & x & ->).
  unfold index_last. rewrite rev_app_distr. simpl. eauto.
Qed.

Lemma step_size_at_ok C (step : Z) :
  well_shaped E cfg X C -> (0 <= step < num_classes cfg)%Z ->
  exists sigma sigma_last,
    index (sigmas E) step = Ok sigma /\ index_last (sigmas E) = Ok sigma_last /\
    step_size_at E cfg step = Ok (step_size_of cfg sigma sigma_last).
Proof.
  intros WS Hs. pose proof (ws_sigmas WS) as Hlen.
  destruct (@index_ok _ (sigmas E) step) as (sigma & Hi); [lia|].
  destruct (@index_last_ok _ (sigmas E)) as (sl & Hl).
  { intros Hnil. rewrite Hnil in Hlen. simpl in Hlen. lia. }
  exists sigma, sl. unfold step_size_at. rewrite Hi, Hl. auto.
Qed.

(** The inner loop of one outer step under the contracts. *)
Lemma inner_loop_run C (step : Z) (ss : fnum) (l : list Z) :
  well_shaped E cfg X C -> step_size_at E cfg step = Ok ss ->
  forall (x : tensor fnum) (w : world),
  shape x = xt_shape cfg ->
  exists x' w' tr,
    for_ l (fun _ => langevin_update E cfg X est (labels_of B step) ss) x w = (Ok x', w') /\
    shape x' = xt_shape cfg /\
    extends w w' (length tr) (calls_of cfg tr) /\
    map fst tr = repeat step (length l) /\
    chain E cfg X (rng w) x tr x' /\
    Forall (fun p => shape (snd p) = xt_shape cfg) tr.
Proof.
  intros WS Hss. induction l as [|z l IH]; intros x w Hx.
  - exists x, w, []. simpl.
    split; [reflexivity|]. split; [assumption|]. split; [apply extends_refl|].
    repeat split; constructor.
  - destruct (langevin_update_run step x w WS Hx Hss) as (x1 & Hrun & Hx1 & Hit).
    destruct (IH x1 (record_call (x, labels_of B step) (draw w)) Hx1)
      as (x' & w' & tr & Hfor & Hx' & Hext & Hsteps & Hchain & Hshapes).
    exists x', w', ((step, x) :: tr). split; [|split; [|split; [|split; [|split]]]].
    + simpl. unfold bind. rewrite Hrun. exact Hfor.
    + exact Hx'.
    + destruct Hext as (e1 & e2 & e3 & e4 & e5). unfold extends. simpl in *.
      rewrite e1, e2, e3, e4, e5, <- app_assoc. simpl. repeat split; lia.
    + simpl. now rewrite Hsteps.
    + simpl. split; [reflexivity|]. exists x1. split; assumption.
    + constructor; assumption.
Qed.

Lemma length_range n : length (range n) = Z.to_nat n.
Proof. unfold range. now rewrite length_map, length_seq. Qed.

(** An outer step that is not skipped, under the contracts. *)
Lemma step_body_run C (idx : nat) (step : Z) (x : tensor fnum) (w : world) :
  well_shaped E cfg X C -> (0 <= step < num_classes cfg)%Z -> shape x = xt_shape cfg ->
  exists x' w' tr,
    step_body E cfg idx X est step x w = (Ok x', w') /\
    shape x' = xt_shape cfg /\
    extends w w' (length tr) (calls_of cfg tr) /\
    map fst tr = repeat step (Z.to_nat (inner_count cfg step)) /\
    chain E cfg X (rng w) x tr x' /\
    Forall (fun p => shape (snd p) = xt_shape cfg) tr.
Proof.
  intros WS Hs Hx.
  destruct (step_size_at_ok WS Hs) as (sigma & sl & Hi & Hl & Hss).
  set (w0 := if (step mod log_interval cfg =? 0)%Z then record_info (idx, step) w else w).
  assert (Hw0 : rng w0 = rng w /\ score_calls w0 = score_calls w /\
                ssim_scores w0 = ssim_scores w /\ psnr_scores w0 = psnr_scores w /\
                files w0 = files w).
  { unfold w0. destruct (step mod log_interval cfg =? 0)%Z; simpl; tauto. }
  destruct (@inner_loop_run C step _ (range (inner_count cfg step)) WS Hss x w0 Hx)
    as (x' & w' & tr & Hfor & Hx' & Hext & Hsteps & Hchain & Hshapes).
  exists x', w', tr. split; [|split; [|split; [|split; [|split]]]]; trivial.
  - unfold step_body, bind, lift.
    replace ((if (step mod log_interval cfg =? 0)%Z then log_info idx step else ret tt) w)
      with (Ok tt, w0)
      by (unfold w0, log_info, ret; destruct (step mod log_interval cfg =? 0)%Z; reflexivity).
    rewrite Hi. unfold shape0. rewrite Hx. unfold xt_shape. rewrite Hl.
    exact Hfor.
  - destruct Hw0 as (a1 & a2 & a3 & a4 & a5).
    destruct Hext as (e1 & e2 & e3 & e4 & e5). unfold extends.
    rewrite e1, e2, e3, e4, e5, a1, a2, a3, a4, a5. tauto.
  - now rewrite Hsteps, length_range.
  - destruct Hw0 as (a1 & _). now rewrite <- a1.
Qed.

Lemma sched_range : sched cfg (range (num_classes cfg)) = schedule cfg.
Proof.
  unfold schedule, outer_steps, sched.
  induction (range (num_classes cfg)) as [|z l IH]; simpl; [reflexivity|].
  destruct (z <=? start_iter cfg)%Z; simpl; now rewrite IH.
Qed.

Lemma calls_of_app tr1 tr2 : calls_of cfg (tr1 ++ tr2) = calls_of cfg tr1 ++ calls_of cfg tr2.
Proof. apply map_app. Qed.

(** The outer loop under the contracts. *)
Lemma outer_loop_run C (idx : nat) (l : list Z) :
  well_shaped E cfg X C -> Forall (fun z => 0 <= z < num_classes cfg)%Z l ->
  forall (x : tensor fnum) (w : world),
  shape x = xt_shape cfg ->
  exists x' w' tr,
    for_ l (outer_body E cfg idx X est) x w = (Ok x', w') /\
    shape x' = xt_shape cfg /\
    extends w w' (length tr) (calls_of cfg tr) /\
    map fst tr = sched cfg l /\
    chain E cfg X (rng w) x tr x' /\
    Forall (fun p => shape (snd p) = xt_shape cfg) tr.
Proof.
  intros WS. induction l as [|z l IH]; intros Hl x w Hx.
  - exists x, w, []. simpl.
    split; [reflexivity|]. split; [assumption|]. split; [apply extends_refl|].
    repeat split; constructor.
  - inversion Hl as [|? ? Hz Hl']; subst.
    simpl. unfold outer_body at 1, bind.
    destruct (z <=? start_iter cfg)%Z eqn:Hskip.
    + unfold ret. destruct (IH Hl' x w Hx) as (x' & w' & tr & IH').
      exists x', w', tr. exact IH'.
    + destruct (@step_body_run C idx z x w WS Hz Hx)
        as (x1 & w1 & tr1 & Hrun & Hx1 & Hext1 & Hsteps1 & Hchain1 & Hsh1).
      destruct (IH Hl' x1 w1 Hx1)
        as (x' & w' & tr2 & Hfor & Hx' & Hext2 & Hsteps2 & Hchain2 & Hsh2).
      exists x', w', (tr1 ++ tr2). split; [|split; [|split; [|split; [|split]]]].
      * rewrite Hrun. exact Hfor.
      * exact Hx'.
      * rewrite length_app, calls_of_app. eapply extends_trans; eassumption.
      * now rewrite map_app, Hsteps1, Hsteps2.
      * apply chain_app with (y := x1); [assumption|].
        destruct Hext1 as (e1 & _). now rewrite <- e1.
      * apply Forall_app; split; assumption.
Qed.

Lemma range_bounds n : Forall (fun z => 0 <= z < n)%Z (range n).
Proof. apply Forall_forall. intros z. apply in_range. Qed.

(** A batch under the contracts: the run succeeds, and [tr] lists the
    inner iterations with the candidate each one started from, [xT] being
    the candidate the loop ends with. *)
Lemma sample_batch_run C (idx : nat) (w : world) :
  well_shaped E cfg X C ->
  exists xT w' tr,
    sample_batch E cfg idx X w = (Ok (normalize E xT est), w') /\
    shape xT = xt_shape cfg /\
    extends w w' (S (length tr)) (calls_of cfg tr) /\
    map fst tr = schedule cfg /\
    chain E cfg X (S (rng w)) (initial_candidate E cfg w) tr xT /\
    Forall (fun p => shape (snd p) = xt_shape cfg) tr.
Proof.
  intros WS.
  destruct (@outer_loop_run C idx (range (num_classes cfg)) WS
              (range_bounds _) (initial_candidate E cfg w) (draw w) eq_refl)
    as (xT & w' & tr & Hfor & HxT & Hext & Hsteps & Hchain & Hsh).
  exists xT, w', tr. split; [|split; [|split; [|split; [|split]]]]; trivial.
  - unfold sample_batch, bind, randn, annealing_loop. fold est.
    unfold initial_candidate in Hfor. rewrite Hfor. reflexivity.
  - destruct Hext as (e1 & e2 & e3 & e4 & e5). unfold extends.
    simpl in *. rewrite e1, e2, e3, e4, e5. repeat split; lia.
  - now rewrite <- sched_range.
Qed.


Lemma chain_head k x tr xend : chain E cfg X k x tr xend -> hd xend (map snd tr) = x.
Proof.
  destruct tr as [|[s y] tr]; simpl; [congruence|]. now intros (-> & _).
Qed.

End Run.

(** * The outer loop *)

Lemma filter_seq_ge (a n : nat) :
  filter (fun k => Nat.leb a k) (seq 0 n) = seq a (n - a).
Proof.
  induction n as [|n IH]; [reflexivity|].
  rewrite seq_S, filter_app, IH.
  change (filter (fun k => Nat.leb a k) [(0 + n)%nat])
    with (if Nat.leb a n then [n] else []).
  destruct (Nat.leb_spec a n) as [Hle|Hlt].
  - replace (S n - a)%nat with (S (n - a)) by lia.
    rewrite seq_S. repeat f_equal. lia.
  - replace (S n - a)%nat with 0%nat by lia.
    replace (n - a)%nat with 0%nat by lia. reflexivity.
Qed.

Lemma filter_map_comm {A B} (f : B -> bool) (g : A -> B) (l : list A) :
  filter f (map g l) = map g (filter (fun a => f (g a)) l).
Proof.
  induction l as [|a l IH]; simpl; [reflexivity|].
  destruct (f (g a)); simpl; now rewrite IH.
Qed.

Lemma outer_steps_eq cfg :
  outer_steps cfg =
  map Z.of_nat (seq (Z.to_nat (start_iter cfg + 1))
                    (Z.to_nat (num_classes cfg) - Z.to_nat (start_iter cfg + 1))).
Proof.
  unfold outer_steps, range. rewrite filter_map_comm, <- filter_seq_ge.
  f_equal. apply filter_ext. intros k.
  destruct (Z.leb_spec (Z.of_nat k) (start_iter cfg));
    destruct (Nat.leb_spec (Z.to_nat (start_iter cfg + 1)) k); simpl; trivial; lia.
Qed.

Lemma seq_strictly_increasing (a m : nat) :
  StronglySorted Z.lt (map Z.of_nat (seq a m)).
Proof.
  revert a. induction m as [|m IH]; intros a; simpl; constructor.
  - apply IH.
  - apply Forall_forall. intros z Hz. apply in_map_iff in Hz.
    destruct Hz as (k & <- & Hk). apply in_seq in Hk. lia.
Qed.

Lemma for_filter {A S} (skip : A -> bool) (body : A -> S -> M S) (l : list A) :
  forall s w,
    for_ l (fun a s => if skip a then ret s else body a s) s w
    = for_ (filter (fun a => negb (skip a)) l) body s w.
Proof.
  induction l as [|a l IH]; intros s w; simpl; [reflexivity|].
  destruct (skip a); simpl.
  - unfold bind, ret. apply IH.
  - unfold bind. destruct (body a s w) as [[s'|e] w']; [apply IH | reflexivity].
Qed.

(** ** C5 *)

(** C5. For every configuration, the outer loop runs the body of an outer
    step for exactly the timesteps of [range(num_classes)] from
    [start_iter + 1] to [num_classes - 1], each once and in strictly
    increasing order, and a step [<= start_iter] changes neither the
    candidate nor the world: no draw, no score query. *)
Theorem outer_loop_visits (E : collaborators) (cfg : config) (idx : nat) (X : batch)
    (estimated_mvue : tensor cplx) :
  (forall xt w,
      annealing_loop E cfg idx X estimated_mvue xt w
      = for_ (outer_steps cfg) (step_body E cfg idx X estimated_mvue) xt w) /\
  outer_steps cfg =
    map Z.of_nat (seq (Z.to_nat (start_iter cfg + 1))
                      (Z.to_nat (num_classes cfg) - Z.to_nat (start_iter cfg + 1))) /\
  (forall z, In z (outer_steps cfg) <->
             (start_iter cfg + 1 <= z <= num_classes cfg - 1 /\ 0 <= z)%Z) /\
  StronglySorted Z.lt (outer_steps cfg) /\
  (forall step xt w, (step <= start_iter cfg)%Z ->
      outer_body E cfg idx X estimated_mvue step xt w = (Ok xt, w)).
Proof.
  split; [|split; [|split; [|split]]].
  - intros xt w. unfold annealing_loop, outer_steps.
    rewrite <- for_filter. reflexivity.
  - apply outer_steps_eq.
  - intros z. rewrite in_outer_steps. lia.
  - rewrite outer_steps_eq. apply seq_strictly_increasing.
  - intros step xt w Hs. unfold outer_body.
    destruct (Z.leb_spec step (start_iter cfg)); [reflexivity | lia].
Qed.

(** * Entries of broadcast results *)





Lemma tzip_at {A B C} (f : A -> B -> C) (a : tensor A) (b : tensor B) c :
  tzip f a b = Ok c ->
  forall i, at_ c i = f (at_ a (bidx (shape a) i)) (at_ b (bidx (shape b) i)).
Proof.
  unfold tzip. destruct (broadcast_shapes (shape a) (shape b)); [|discriminate].
  intros Hc; injection Hc as <-. reflexivity.
Qed.

(** Line 97 entry by entry: every entry of the new candidate is
    [x + step_size * (p - m) + noise] at broadcast indices of the operands. *)
Lemma langevin_formula_at (x p m noise : tensor fnum) (ss : fnum) x' :
  langevin_formula x ss p m noise = Ok x' ->
  forall i, exists ix ip im inoise,
    at_ x' i = fadd (fadd (at_ x ix) (fmul ss (fsub (at_ p ip) (at_ m im))))
                    (at_ noise inoise).
Proof.
  unfold langevin_formula, rbind.
  destruct (tzip fsub p m) as [d|] eqn:Hd; [|discriminate].
  destruct (tzip fadd x (smult ss d)) as [u|] eqn:Hu; [|discriminate].
  intros Hx i.
  rewrite (tzip_at _ _ _ Hx), (tzip_at _ _ _ Hu). simpl.
  rewrite (tzip_at _ _ _ Hd). eauto.
Qed.


Section Claims.

Variable E : collaborators.
Variable cfg : config.
Variable X : batch.

Let B := batch_size cfg.
Let H := fst (image_size cfg).
Let W := snd (image_size cfg).
Let est := estimated_mvue_of E X.

(** ** C2 *)


(** ** C3 *)


(** ** C4 *)



(** ** C8 *)

(** C8. Under the collaborators' contracts the candidate has shape
    [batch, 2, H, W] when it is drawn and before and after every inner
    iteration: [map snd tr ++ [xT]] lists the candidate before the first
    iteration, between consecutive iterations and after the last one. *)
Theorem candidate_shape_invariant (C idx : nat) (w : world) :
  well_shaped E cfg X C ->
  exists xT w' tr,
    sample_batch E cfg idx X w = (Ok (normalize E xT est), w') /\
    score_calls w' = score_calls w ++ calls_of cfg tr /\
    map fst tr = schedule cfg /\
    hd xT (map snd tr) = initial_candidate E cfg w /\
    shape (initial_candidate E cfg w) = [B; 2; H; W] /\
    Forall (fun x => shape x = [B; 2; H; W]) (map snd tr ++ [xT]).
Proof.
  intros WS.
  destruct (sample_batch_run idx w WS)
    as (xT & w' & tr & Hrun & HxT & Hext & Hsteps & Hchain & Hsh).
  exists xT, w', tr. split; [exact Hrun|]. split; [apply Hext|].
  split; [exact Hsteps|]. split; [eapply chain_head; exact Hchain|].
  split; [reflexivity|].
  apply Forall_app. split.
  - rewrite Forall_map. exact Hsh.
  - constructor; [exact HxT | constructor].
Qed.

(** ** C10 *)

Lemma match_norm_zero (g p : tensor fnum) : norm g = Fin 0 -> all_nan (match_norm g p).
Proof.
  intros Hg i. unfold match_norm. simpl. rewrite Hg, fdiv_zero. reflexivity.
Qed.

Lemma iteration_nan_zero step k x x' g :
  iteration E cfg X step k x x' ->
  raw_meas_grad E X est x = Ok g -> norm g = Fin 0 -> all_nan x'.
Proof.
  intros (ss & g' & _ & Hg' & Hf) Hg Hz i. unfold est in Hg.
  rewrite Hg in Hg'. injection Hg' as <-. simpl in Hf.
  destruct (langevin_formula_at _ _ _ _ _ Hf i) as (ix & ip & im & ino & ->).
  unfold rescale_meas_grad, match_norm. simpl. rewrite Hz, fdiv_zero. simpl.
  now rewrite fsub_nan_r, fmul_nan_r, fadd_nan_r.
Qed.

Lemma iteration_nan_keep step k x x' :
  iteration E cfg X step k x x' -> all_nan x -> all_nan x'.
Proof.
  intros (ss & g & _ & _ & Hf) Hx i. simpl in Hf.
  destruct (langevin_formula_at _ _ _ _ _ Hf i) as (ix & ip & im & ino & ->).
  now rewrite Hx.
Qed.

Lemma chain_nan k x tr xend :
  chain E cfg X k x tr xend -> all_nan x -> all_nan xend.
Proof.
  revert k x. induction tr as [|[step y] tr IH]; simpl; intros k x Hc Hx.
  - now subst.
  - destruct Hc as (-> & x' & Hit & Hc).
    eapply IH; [eassumption|]. eapply iteration_nan_keep; eassumption.
Qed.

Lemma chain_poison k x0 tr xend step x g :
  chain E cfg X k x0 tr xend -> In (step, x) tr ->
  raw_meas_grad E X est x = Ok g -> norm g = Fin 0 -> all_nan xend.
Proof.
  revert k x0. induction tr as [|[s y] tr IH]; simpl; intros k x0 Hc Hin Hg Hz.
  - contradiction.
  - destruct Hc as (-> & x' & Hit & Hc). destruct Hin as [Heq|Hin].
    + injection Heq as -> ->. eapply chain_nan; [eassumption|].
      eapply iteration_nan_zero; eassumption.
    + eapply IH; eassumption.
Qed.

(** C10. Under the collaborators' contracts a batch is sampled without
    error whatever the candidates are: nothing guards the division of line
    93.  If for some candidate [x] the score network is queried with the
    data-consistency gradient before rescaling has norm zero, the division
    by that norm yields a non-finite value at every entry, and every entry
    of the candidate the batch returns is non-finite. *)
Theorem zero_norm_poisons_candidate (C idx : nat) (w : world) :
  well_shaped E cfg X C ->
  exists out w' calls,
    sample_batch E cfg idx X w = (Ok out, w') /\
    score_calls w' = score_calls w ++ calls /\
    forall x labels raw_grad,
      In (x, labels) calls ->
      raw_meas_grad E X est x = Ok raw_grad ->
      norm raw_grad = Fin 0 ->
      (forall p_grad, all_nan (match_norm raw_grad p_grad)) /\ all_nan out.
Proof.
  intros WS.
  destruct (sample_batch_run idx w WS)
    as (xT & w' & tr & Hrun & HxT & Hext & Hsteps & Hchain & Hsh).
  exists (normalize E xT est), w', (calls_of cfg tr).
  split; [exact Hrun|]. split; [apply Hext|].
  intros x labels g Hin Hg Hz. split.
  - intros p. now apply match_norm_zero.
  - unfold calls_of in Hin. apply in_map_iff in Hin.
    destruct Hin as ([step y] & Heq & Hin). simpl in Heq. injection Heq as -> _.
    assert (HT : all_nan xT) by (eapply chain_poison; eassumption).
    intros i. unfold normalize. simpl. now rewrite HT.
Qed.

(** ** C1 *)

Lemma calls_of_length tr : length (calls_of cfg tr) = length tr.
Proof. apply length_map. Qed.

(** The score queries of a batch are one per entry of the schedule. *)
Lemma score_queries_count (C idx : nat) (w : world) :
  well_shaped E cfg X C ->
  exists out w' calls,
    sample_batch E cfg idx X w = (Ok out, w') /\
    score_calls w' = score_calls w ++ calls /\
    map (fun c => at_ (snd c) [0%nat]) calls = schedule cfg.
Proof.
  intros WS.
  destruct (sample_batch_run idx w WS)
    as (xT & w' & tr & Hrun & HxT & Hext & Hsteps & Hchain & Hsh).
  exists (normalize E xT est), w', (calls_of cfg tr).
  split; [exact Hrun|]. split; [apply Hext|].
  unfold calls_of. rewrite map_map. simpl. exact Hsteps.
Qed.

(** C1 (as amended).  With [num_classes = 10], [start_iter = 5] and
    [n_steps_each = 1], the sampler performs the 4 outer steps 6, 7, 8, 9
    with 3 inner iterations each, every step being [<= 1800]: the score
    network is queried 12 times for the batch, with the labels
    6, 6, 6, 7, 7, 7, 8, 8, 8, 9, 9, 9. *)
Theorem scenario_query_count (C idx : nat) (w : world) :
  num_classes cfg = 10%Z -> start_iter cfg = 5%Z -> n_steps_each cfg = 1%Z ->
  well_shaped E cfg X C ->
  outer_steps cfg = [6; 7; 8; 9]%Z /\
  Forall (fun step => inner_count cfg step = 3%Z) (outer_steps cfg) /\
  exists out w' calls,
    sample_batch E cfg idx X w = (Ok out, w') /\
    score_calls w' = score_calls w ++ calls /\
    map (fun c => at_ (snd c) [0%nat]) calls = [6; 6; 6; 7; 7; 7; 8; 8; 8; 9; 9; 9]%Z /\
    length calls = 12%nat.
Proof.
  intros Hn Hs Hk WS.
  assert (Hout : outer_steps cfg = [6; 7; 8; 9]%Z).
  { unfold outer_steps. rewrite Hn, Hs. reflexivity. }
  split; [exact Hout|]. split.
  { rewrite Hout. repeat constructor. }
  destruct (score_queries_count idx w WS) as (out & w' & calls & Hrun & Hcalls & Hlab).
  exists out, w', calls. split; [exact Hrun|]. split; [exact Hcalls|].
  assert (Hsched : schedule cfg = [6; 6; 6; 7; 7; 7; 8; 8; 8; 9; 9; 9]%Z).
  { unfold schedule. rewrite Hout. reflexivity. }
  rewrite Hsched in Hlab. split; [exact Hlab|].
  rewrite <- (length_map (fun c => at_ (snd c) [0%nat])), Hlab. reflexivity.
Qed.

End Claims.

Section Post.

Variable E : collaborators.
Variable cfg : config.

(** ** C9 *)

(** C9. If the filled circle painted by [cv2.circle] stays within radius
    165 of (192, 192), then with [circle_mask] enabled every pixel [(x, y)]
    of the 8-bit reconstructed image returned by [edit] farther than 165
    from (192, 192) is exactly zero (and the painted pixels keep their
    value); with [circle_mask] disabled the masking step returns the image
    unchanged. *)
Theorem circle_mask_zeroes_outside :
  (forall x y, cv2_circle E (192, 192)%Z 165%Z x y = true ->
               ((x - 192) * (x - 192) + (y - 192) * (y - 192) <= 165 * 165)%Z) ->
  (forall orig_img recon_img o r a b,
      edit E cfg orig_img recon_img = Ok (o, r, a, b) ->
      exists recon_np, to_uint8 E r = Ok recon_np /\ b = mask_stage E cfg recon_np) /\
  (forall recon_np,
      (circle_mask cfg = true ->
       forall x y : nat,
         ((Z.of_nat x - 192) * (Z.of_nat x - 192)
          + (Z.of_nat y - 192) * (Z.of_nat y - 192) > 165 * 165)%Z ->
         at_ (mask_stage E cfg recon_np) [y; x] = 0%Z) /\
      (circle_mask cfg = true ->
       forall x y : nat,
         cv2_circle E (192, 192)%Z 165%Z (Z.of_nat x) (Z.of_nat y) = true ->
         at_ (mask_stage E cfg recon_np) [y; x] = at_ recon_np [y; x]) /\
      (circle_mask cfg = false -> mask_stage E cfg recon_np = recon_np)).
Proof.
  intros Hcircle. split.
  - intros orig_img recon_img o r a b. unfold edit, rbind.
    destruct (if denoise_005 cfg then _ else _) as [imgs|]; [|discriminate].
    destruct (to_uint8 E (fst imgs)) as [orig_np|]; [|discriminate].
    destruct (to_uint8 E (snd imgs)) as [recon_np|] eqn:Hr; [|discriminate].
    destruct (cv2_accepts cfg recon_np); [|discriminate].
    intros Heq. injection Heq as <- <- <- <-.
    exists recon_np. split; [exact Hr | reflexivity].
  - intros recon_np. unfold mask_stage. repeat split.
    + intros -> x y Hout. simpl.
      destruct (cv2_circle E (192, 192)%Z 165%Z (Z.of_nat x) (Z.of_nat y)) eqn:Hc.
      * apply Hcircle in Hc. lia.
      * reflexivity.
    + intros -> x y Hc. simpl. rewrite Hc. simpl. apply Z.land_diag.
    + intros ->. reflexivity.
Qed.

(** ** C7 *)

Lemma keeps_ret I {A} (a : A) : keeps I (ret a).
Proof. intros w r w' HI Heq. injection Heq as _ <-. exact HI. Qed.

Lemma keeps_lift I {A} (r : result A) : keeps I (lift r).
Proof. intros w r' w' HI Heq. injection Heq as _ <-. exact HI. Qed.

Lemma keeps_bind I {A B} (m : M A) (k : A -> M B) :
  keeps I m -> (forall a, keeps I (k a)) -> keeps I (bind m k).
Proof.
  intros Hm Hk w r w' HI. unfold bind.
  destruct (m w) as [[a|e] w1] eqn:Hmw.
  - apply (Hk a w1). eapply Hm; eassumption.
  - intros Heq. injection Heq as _ <-. eapply Hm; eassumption.
Qed.

Lemma keeps_for I {A S} (l : list A) (body : A -> S -> M S) :
  (forall a s, keeps I (body a s)) -> forall s, keeps I (for_ l body s).
Proof.
  intros Hb. induction l as [|a l IH]; intros s; simpl.
  - apply keeps_ret.
  - apply keeps_bind; [apply Hb | exact IH].
Qed.

Lemma keeps_same_files {A} (m : M A) :
  (forall w r w', m w = (r, w') -> files w' = files w) -> keeps no_stats m.
Proof.
  intros Hm w r w' HI Heq. unfold no_stats. rewrite (Hm _ _ _ Heq). exact HI.
Qed.

Lemma sample_batch_keeps idx X : keeps no_stats (sample_batch E cfg idx X).
Proof.
  unfold sample_batch. apply keeps_bind.
  { apply keeps_same_files. intros w r w' Heq. injection Heq as _ <-. reflexivity. }
  intros x0. apply keeps_bind; [|intros; apply keeps_ret].
  unfold annealing_loop. apply keeps_for. intros step x.
  unfold outer_body. destruct (step <=? start_iter cfg)%Z; [apply keeps_ret|].
  unfold step_body. apply keeps_bind.
  { destruct (step mod log_interval cfg =? 0)%Z; [|apply keeps_ret].
    apply keeps_same_files. intros w r w' Heq. injection Heq as _ <-. reflexivity. }
  intros _. apply keeps_bind; [apply keeps_lift|]. intros sigma.
  apply keeps_bind; [apply keeps_lift|]. intros d0.
  apply keeps_bind; [apply keeps_lift|]. intros sigma_last.
  apply keeps_for. intros _ xt. unfold langevin_update.
  apply keeps_bind.
  { apply keeps_same_files. intros w r w' Heq. injection Heq as _ <-. reflexivity. }
  intros z. apply keeps_bind.
  { apply keeps_same_files. intros w r w' Heq. injection Heq as _ <-. reflexivity. }
  intros p. apply keeps_bind; [apply keeps_lift|]. intros g. apply keeps_lift.
Qed.

Lemma write_image_keeps (f : file) :
  (forall s p, f <> StatsJson s p) -> keeps no_stats (write_file E f).
Proof.
  intros Hf w r w' HI. unfold write_file.
  destruct (writable E f); intros Heq; injection Heq as _ <-; [|exact HI].
  intros s p Hin. simpl in Hin. apply in_app_or in Hin.
  destruct Hin as [Hin|[Heq|[]]]; [exact (HI s p Hin) | exact (Hf s p Heq)].
Qed.

Lemma process_slice_keeps X xt i u : keeps no_stats (process_slice E cfg X xt i u).
Proof.
  unfold process_slice.
  apply keeps_bind; [apply keeps_lift|]. intros recon_img.
  apply keeps_bind; [apply keeps_lift|]. intros orig_img.
  apply keeps_bind; [apply keeps_lift|]. intros edited.
  apply keeps_bind.
  { apply keeps_same_files. intros w r w' Heq. injection Heq as _ <-. reflexivity. }
  intros _. unfold save_slice. destruct (save_images cfg); [|apply keeps_ret].
  apply keeps_bind; [apply keeps_lift|]. intros slice.
  apply keeps_bind; [apply write_image_keeps; discriminate|]. intros _.
  apply keeps_bind.
  { apply keeps_same_files. intros w r w'. unfold load_font.
    destruct (font_available E); intros Heq; injection Heq as _ <-; reflexivity. }
  intros _. apply write_image_keeps; discriminate.
Qed.

Lemma process_batch_keeps idx X u : keeps no_stats (process_batch E cfg idx X u).
Proof.
  unfold process_batch. apply keeps_bind; [apply sample_batch_keeps|].
  intros xt. apply keeps_for. intros i u'. apply process_slice_keeps.
Qed.

(** Whether [sample] returns or raises, and what it has then written. *)
Lemma sample_stats_cases dataloader w r w' :
  no_stats w -> sample E cfg dataloader w = (r, w') ->
  match r with
  | Ok _ => exists fs, files w' = fs ++ [StatsJson (ssim_scores w') (psnr_scores w')] /\
                       forall s p, ~ In (StatsJson s p) fs
  | Raise _ => no_stats w'
  end.
Proof.
  intros HI. unfold sample, bind.
  destruct (for_ _ _ _ _) as [[u|e] w1] eqn:Hfor.
  - assert (H1 : no_stats w1).
    { eapply (@keeps_for no_stats); [|exact HI | exact Hfor].
      intros a s. apply process_batch_keeps. }
    unfold write_stats, write_file.
    destruct (writable E _); intros Heq; injection Heq as <- <-.
    + exists (files w1). split; [reflexivity | exact H1].
    + exact H1.
  - intros Heq. injection Heq as <- <-.
    eapply (@keeps_for no_stats); [|exact HI | exact Hfor].
    intros a s. apply process_batch_keeps.
Qed.

(** A slice whose first image cannot be written. *)
Lemma process_slice_save_fails X xt i w recon_img orig_img o r orig_np recon_np slice :
  magnitude_image E xt i = Ok recon_img ->
  reference_image E (mvue X) i = Ok orig_img ->
  edit E cfg orig_img recon_img = Ok (o, r, orig_np, recon_np) ->
  save_images cfg = true ->
  index (slice_idx X) (Z.of_nat i) = Ok slice ->
  writable E (OrigJpg slice) = false ->
  process_slice E cfg X xt i tt w
  = (Raise IOError,
     record_scores (ssim E orig_np recon_np) (psnr E orig_np recon_np) w).
Proof.
  intros Hmag Href Hedit Hsave Hidx Hw.
  unfold process_slice, bind, lift. rewrite Hmag, Href, Hedit. simpl.
  unfold save_slice. rewrite Hsave. unfold bind, lift. rewrite Hidx.
  unfold write_file. rewrite Hw. reflexivity.
Qed.

(** A run over one batch of one slice whose processing raises. *)
Lemma sample_single_slice_raises X w xt w1 e w2 :
  batch_size cfg = 1%nat ->
  sample_batch E cfg 0 X w = (Ok xt, w1) ->
  process_slice E cfg X xt 0 tt w1 = (Raise e, w2) ->
  sample E cfg [X] w = (Raise e, w2).
Proof.
  intros HB Hrun Hslice. unfold sample, bind.
  change (enumerate [X]) with [(0%nat, X)].
  unfold for_ at 1, bind, process_batch, bind. simpl fst. simpl snd.
  rewrite Hrun, HB. simpl seq. unfold for_, bind. rewrite Hslice. reflexivity.
Qed.

(** A loop stops at the first body that raises. *)
Lemma for_raises_at {A St} (l1 l2 : list A) (a : A) (body : A -> St -> M St)
    (s s1 : St) (w w1 w2 : world) (e : exn) :
  for_ l1 body s w = (Ok s1, w1) ->
  body a s1 w1 = (Raise e, w2) ->
  for_ (l1 ++ a :: l2) body s w = (Raise e, w2).
Proof.
  revert s w. induction l1 as [|b l1 IH]; intros s w Hpre Ha; simpl in *.
  - injection Hpre as -> ->. unfold bind. now rewrite Ha.
  - unfold bind in *. destruct (body b s w) as [[s'|e'] w'] eqn:Hb; [|discriminate].
    now apply IH.
Qed.

Lemma combine_app_same {A B} (l1 l2 : list A) (m1 m2 : list B) :
  length l1 = length m1 ->
  combine (l1 ++ l2) (m1 ++ m2) = combine l1 m1 ++ combine l2 m2.
Proof.
  revert m1. induction l1 as [|a l1 IH]; intros [|b m1] Hlen; try discriminate.
  - reflexivity.
  - simpl. f_equal. apply IH. now injection Hlen.
Qed.

Lemma enumerate_app {A} (pre post : list A) (a : A) :
  exists rest, enumerate (pre ++ a :: post) = enumerate pre ++ (length pre, a) :: rest.
Proof.
  unfold enumerate. rewrite length_app. simpl length.
  rewrite seq_app, combine_app_same by now rewrite length_seq.
  simpl. eexists. reflexivity.
Qed.

(** A slice that raises ends the run there. *)
Lemma sample_raises_at pre X post w w0 xt w1 i w2 e w3 :
  for_ (enumerate pre) (fun p => process_batch E cfg (fst p) (snd p)) tt w = (Ok tt, w0) ->
  sample_batch E cfg (length pre) X w0 = (Ok xt, w1) ->
  (i < batch_size cfg)%nat ->
  for_ (seq 0 i) (process_slice E cfg X xt) tt w1 = (Ok tt, w2) ->
  process_slice E cfg X xt i tt w2 = (Raise e, w3) ->
  sample E cfg (pre ++ X :: post) w = (Raise e, w3).
Proof.
  intros Hpre Hrun Hi Hslices Hfail. unfold sample.
  destruct (enumerate_app pre post X) as (rest & ->).
  unfold bind at 1.
  rewrite (@for_raises_at _ _ (enumerate pre) rest (length pre, X) _ tt tt w w0 w3 e Hpre);
    [reflexivity|].
  unfold process_batch, bind. simpl fst. simpl snd. rewrite Hrun.
  replace (seq 0 (batch_size cfg))
    with (seq 0 i ++ i :: seq (S i) (batch_size cfg - S i)).
  - exact (@for_raises_at _ _ (seq 0 i) (seq (S i) (batch_size cfg - S i)) i _
             tt tt w1 w2 w3 e Hslices Hfail).
  - change (i :: seq (S i) (batch_size cfg - S i)) with (seq i (S (batch_size cfg - S i))).
    rewrite <- seq_app. f_equal. lia.
Qed.

(** C7 (as amended).  stats.json is written exactly when nothing raised
    during the run: if [sample] returns, stats.json is the last file
    written and holds the SSIM and PSNR lists of the run; if anything
    raises, [sample] raises and no stats.json is written.  A failing image
    save does raise: a slice whose first image cannot be written ends with
    [IOError], its metrics having been appended to the lists in memory
    just before.  And nothing catches it: when the batches before a batch
    and the slices of that batch before slice [i] have been processed and
    slice [i] raises, [sample] raises the same exception and leaves the
    world as the failing slice left it, so no later slice or batch is
    processed and nothing more is written. *)
Theorem stats_written_iff_no_raise :
  (forall dataloader w r w',
      no_stats w -> sample E cfg dataloader w = (r, w') ->
      match r with
      | Ok _ => exists fs, files w' = fs ++ [StatsJson (ssim_scores w') (psnr_scores w')] /\
                           forall s p, ~ In (StatsJson s p) fs
      | Raise _ => no_stats w'
      end) /\
  (forall X xt i w recon_img orig_img o r orig_np recon_np slice,
      magnitude_image E xt i = Ok recon_img ->
      reference_image E (mvue X) i = Ok orig_img ->
      edit E cfg orig_img recon_img = Ok (o, r, orig_np, recon_np) ->
      save_images cfg = true ->
      index (slice_idx X) (Z.of_nat i) = Ok slice ->
      writable E (OrigJpg slice) = false ->
      process_slice E cfg X xt i tt w
      = (Raise IOError,
         record_scores (ssim E orig_np recon_np) (psnr E orig_np recon_np) w)) /\
  (forall pre X post w w0 xt w1 i w2 e w3,
      for_ (enumerate pre) (fun p => process_batch E cfg (fst p) (snd p)) tt w
      = (Ok tt, w0) ->
      sample_batch E cfg (length pre) X w0 = (Ok xt, w1) ->
      (i < batch_size cfg)%nat ->
      for_ (seq 0 i) (process_slice E cfg X xt) tt w1 = (Ok tt, w2) ->
      process_slice E cfg X xt i tt w2 = (Raise e, w3) ->
      sample E cfg (pre ++ X :: post) w = (Raise e, w3)).
Proof.
  split; [|split].
  - intros dataloader w r w'. apply sample_stats_cases.
  - intros X xt i w recon_img orig_img o r orig_np recon_np slice.
    apply process_slice_save_fails.
  - intros pre X post w w0 xt w1 i w2 e w3. apply sample_raises_at.
Qed.

End Post.

Lemma stub_well_shaped wr lr : well_shaped (stub wr) (scenario lr) blank_batch 1.
Proof.
  constructor; try reflexivity.
  intros x l Hx. exact Hx.
Qed.

Lemma stub8_well_shaped wr lr : well_shaped (stub8 wr) (scenario8 lr) blank_batch8 1.
Proof.
  constructor; try reflexivity.
  intros x l Hx. exact Hx.
Qed.

Lemma scenario_schedule lr :
  schedule (scenario lr) = [6; 6; 6; 7; 7; 7; 8; 8; 8; 9; 9; 9]%Z.
Proof. reflexivity. Qed.

(** * Witnesses and counterexamples *)




(** Witness for C1: the scenario with the stub collaborators. *)
Lemma scenario_query_count_witness :
  outer_steps (scenario 1) = [6; 7; 8; 9]%Z /\
  exists out w' calls,
    sample_batch (stub all_writable) (scenario 1) 0 blank_batch fresh_world = (Ok out, w') /\
    score_calls w' = calls /\ length calls = 12%nat.
Proof.
  destruct (@scenario_query_count (stub all_writable) (scenario 1) blank_batch 1 0
              fresh_world eq_refl eq_refl eq_refl (stub_well_shaped _ _))
    as (Hout & _ & out & w' & calls & Hrun & Hcalls & _ & Hlen).
  split; [exact Hout|]. exists out, w', calls. repeat split; assumption.
Defined.

(** Counterexample to C1 as stated: in the scenario the score network is
    queried 12 times, not 4. *)
Lemma scenario_four_queries_counterexample :
  exists out w',
    sample_batch (stub all_writable) (scenario 1) 0 blank_batch fresh_world = (Ok out, w') /\
    length (score_calls w') = 12%nat /\ length (score_calls w') <> 4%nat.
Proof.
  destruct (@score_queries_count (stub all_writable) (scenario 1) blank_batch 1 0
              fresh_world (stub_well_shaped _ _))
    as (out & w' & calls & Hrun & Hcalls & Hlab).
  exists out, w'. split; [exact Hrun|].
  assert (Hlen : length (score_calls w') = 12%nat).
  { rewrite Hcalls. simpl.
    rewrite <- (length_map (fun c => at_ (snd c) [0%nat])), Hlab. reflexivity. }
  split; [exact Hlen|]. rewrite Hlen. discriminate.
Defined.


(** Witness for C8. *)
Lemma candidate_shape_invariant_witness :
  exists xT w' (tr : list (Z * tensor fnum)),
    sample_batch (stub all_writable) (scenario 1) 0 blank_batch fresh_world
    = (Ok (normalize (stub all_writable) xT
             (estimated_mvue_of (stub all_writable) blank_batch)), w') /\
    Forall (fun x => shape x = [1; 2; 1; 1]%nat) (map snd tr ++ [xT]).
Proof.
  destruct (@candidate_shape_invariant (stub all_writable) (scenario 1) blank_batch 1 0
              fresh_world (stub_well_shaped _ _))
    as (xT & w' & tr & Hrun & _ & _ & _ & _ & Hall).
  exists xT, w', tr. split; assumption.
Defined.

(** Witness for C5: step 5 of the scenario is skipped. *)
Lemma outer_loop_visits_witness :
  outer_steps (scenario 1) = [6; 7; 8; 9]%Z /\
  forall xt w,
    outer_body (stub all_writable) (scenario 1) 0 blank_batch
               (estimated_mvue_of (stub all_writable) blank_batch) 5 xt w = (Ok xt, w).
Proof.
  destruct (outer_loop_visits (stub all_writable) (scenario 1) 0 blank_batch
              (estimated_mvue_of (stub all_writable) blank_batch))
    as (_ & Heq & _ & _ & Hskip).
  split; [rewrite Heq; reflexivity|].
  intros xt w. apply Hskip. simpl. lia.
Defined.

(** Witness for C6: the last step of the scenario. *)
Lemma step_size_at_spec_witness :
  step_size_at (stub all_writable) (scenario 1) 9 = Ok (Fin (1 * (1 / 1 * (1 / 1)))).
Proof.
  refine (proj1 (@step_size_at_spec (stub all_writable) (scenario 1) sigmas10 1 9
                   eq_refl eq_refl _ eq_refl _)).
  - unfold sigmas10. repeat constructor; lra.
  - apply in_outer_steps. simpl. lia.
Defined.

(** The sign of [step_lr] matters: with [step_lr = -1] the step size of
    step 6, [-1 * (4 / 1) ** 2], is negative. *)
Remark step_size_negative_lr :
  exists v, step_size_at (stub all_writable) (scenario (-1)) 6 = Ok (Fin v) /\ (v < 0)%R.
Proof.
  exists (-1 * (4 / 1 * (4 / 1)))%R. split; [|lra].
  unfold step_size_at, step_size_of. simpl.
  destruct (Req_EM_T 1 0); [lra | reflexivity].
Defined.

(** Counterexample to C6 as stated: with [step_lr = -1] the step size of
    the included step 6 is negative, and with [step_lr = 0] the step size
    of step 6, which is not the last timestep, is [step_lr]. *)
Lemma step_size_sign_counterexample :
  (In 6%Z (outer_steps (scenario (-1))) /\
   exists v, step_size_at (stub all_writable) (scenario (-1)) 6 = Ok (Fin v) /\
             (v < 0)%R) /\
  (In 6%Z (outer_steps (scenario 0)) /\
   6%Z <> (num_classes (scenario 0) - 1)%Z /\
   exists v, step_size_at (stub all_writable) (scenario 0) 6 = Ok (Fin v) /\
             step_lr (scenario 0) = Fin v).
Proof.
  split.
  - split; [simpl; tauto|].
    exists (-1 * (4 / 1 * (4 / 1)))%R. split; [|lra].
    unfold step_size_at, step_size_of. simpl.
    destruct (Req_EM_T 1 0); [lra | reflexivity].
  - split; [simpl; tauto|]. split; [discriminate|].
    exists 0%R. split; [|reflexivity].
    unfold step_size_at, step_size_of. simpl.
    destruct (Req_EM_T 1 0); [lra|].
    apply (f_equal (fun r => Ok (Fin r))). lra.
Defined.



(** Witness for C9: the ideal disc, and the corner pixel of a 384 x 384
    image. *)
Lemma circle_mask_zeroes_outside_witness :
  at_ (mask_stage (stub all_writable) (scenario 1)
         (Tensor [384; 384]%nat (fun _ => 255%Z))) [0%nat; 0%nat] = 0%Z.
Proof.
  set (recon_np := Tensor [384; 384]%nat (fun _ => 255%Z)).
  assert (Hdisc : forall x y, cv2_circle (stub all_writable) (192, 192)%Z 165%Z x y = true ->
                              ((x - 192) * (x - 192) + (y - 192) * (y - 192) <= 165 * 165)%Z).
  { intros x y Hd. simpl in Hd. unfold disc in Hd. simpl in Hd.
    apply Z.leb_le in Hd. exact Hd. }
  destruct (@circle_mask_zeroes_outside (stub all_writable) (scenario 1) Hdisc)
    as (_ & Hmask).
  destruct (Hmask recon_np) as (Hout & _).
  apply (Hout eq_refl 0%nat 0%nat). simpl. lia.
Defined.

(** Witness for C7: a run on 8 x 8 images in which the first image cannot
    be written. *)
Lemma stats_written_iff_no_raise_witness :
  exists r w',
    sample (stub8 no_orig_jpg) (scenario8 1) [blank_batch8] fresh_world = (r, w') /\
    match r with
    | Ok _ => exists fs, files w' = fs ++ [StatsJson (ssim_scores w') (psnr_scores w')] /\
                         forall s p, ~ In (StatsJson s p) fs
    | Raise _ => no_stats w'
    end.
Proof.
  destruct (sample (stub8 no_orig_jpg) (scenario8 1) [blank_batch8] fresh_world)
    as [r w'] eqn:Hs.
  exists r, w'. split; [reflexivity|].
  apply (proj1 (stats_written_iff_no_raise (stub8 no_orig_jpg) (scenario8 1))
               [blank_batch8] fresh_world r w'); [|exact Hs].
  intros s p [].
Defined.

(** Counterexample to C7 as stated, on 8 x 8 images: the image of the only
    slice cannot be written; the metrics of the slice were computed,
    [sample] raises and no file at all, stats.json included, is written. *)
Lemma failed_save_loses_stats_counterexample :
  exists w',
    sample (stub8 no_orig_jpg) (scenario8 1) [blank_batch8] fresh_world
    = (Raise IOError, w') /\
    files w' = [] /\
    ssim_scores w' = [Fin 1].
Proof.
  destruct (@sample_batch_run (stub8 no_orig_jpg) (scenario8 1) blank_batch8 1 0
              fresh_world (stub8_well_shaped _ _))
    as (xT & w1 & tr & Hrun & _ & Hext & _).
  destruct Hext as (_ & _ & Hssim & _ & Hfiles).
  eexists. split; [|split].
  - eapply sample_single_slice_raises; [reflexivity | exact Hrun |].
    eapply process_slice_save_fails; reflexivity.
  - simpl. exact Hfiles.
  - simpl. rewrite Hssim. reflexivity.
Defined.

(** The first candidate of the scenario: its simulated k-space is the
    ground truth and the data-consistency gradient has norm zero. *)
Lemma blank_batch_zero_gradient :
  exists g,
    raw_meas_grad (stub all_writable) blank_batch
      (estimated_mvue_of (stub all_writable) blank_batch)
      (initial_candidate (stub all_writable) (scenario 1) fresh_world) = Ok g /\
    norm g = Fin 0.
Proof.
  eexists. split.
  - unfold raw_meas_grad, forward_operator. simpl. reflexivity.
  - unfold norm. simpl.
    destruct (Req_EM_T 2 0); [lra|]. simpl.
    match goal with |- context [Rlt_dec ?a 0] => replace a with 0%R by field end.
    destruct (Rlt_dec 0 0); [lra|]. now rewrite sqrt_0.
Qed.

(** Witness for C10: in the scenario the very first inner iteration
    divides by a zero norm, and the batch returns a candidate without a
    finite entry. *)
Lemma zero_norm_poisons_candidate_witness :
  exists out w',
    sample_batch (stub all_writable) (scenario 1) 0 blank_batch fresh_world = (Ok out, w') /\
    shape out = [1; 2; 1; 1]%nat /\
    all_nan out.
Proof.
  destruct (@zero_norm_poisons_candidate (stub all_writable) (scenario 1) blank_batch 1 0
              fresh_world (stub_well_shaped _ _))
    as (out & w' & calls & Hrun & Hcalls & Hpoison).
  destruct (@sample_batch_run (stub all_writable) (scenario 1) blank_batch 1 0
              fresh_world (stub_well_shaped _ _))
    as (xT & w1 & tr & Hrun1 & HxT & Hext & Hsteps & Hchain & _).
  rewrite Hrun in Hrun1. injection Hrun1 as Hout Hw. subst w1.
  destruct Hext as (_ & Hcalls1 & _). rewrite Hcalls in Hcalls1.
  apply app_inv_head in Hcalls1.
  destruct blank_batch_zero_gradient as (g & Hg & Hz).
  exists out, w'. split; [exact Hrun|]. split; [rewrite Hout; exact HxT|].
  destruct tr as [|[step y] tr]; [discriminate Hsteps|].
  destruct Hchain as (-> & _).
  refine (proj2 (Hpoison _ _ g _ Hg Hz)).
  rewrite Hcalls1. left. reflexivity.
Defined.

(** * Further properties of the sampler *)

(** X1. The logging interval of lines 51-52 is at least 1 for every
    configuration, so the modulus of line 77 never divides by zero. *)
Theorem log_interval_positive (cfg : config) : (1 <= log_interval cfg)%Z.
Proof.
  unfold log_interval.
  destruct (Z.ltb_spec (timesteps cfg) 5); [lia|].
  apply Z.div_le_lower_bound; lia.
Qed.

Lemma schedule_length cfg : length (schedule cfg) = query_count cfg.
Proof.
  unfold schedule, query_count.
  induction (outer_steps cfg) as [|step l IH]; simpl; [reflexivity|].
  now rewrite length_app, repeat_length, IH.
Qed.

Lemma outer_steps_length cfg :
  length (outer_steps cfg)
  = (Z.to_nat (num_classes cfg) - Z.to_nat (start_iter cfg + 1))%nat.
Proof. now rewrite outer_steps_eq, length_map, length_seq. Qed.

Lemma query_count_small cfg :
  (num_classes cfg <= 1801)%Z ->
  query_count cfg = (3 * length (outer_steps cfg))%nat.
Proof.
  intros Hn. unfold query_count.
  assert (Hall : Forall (fun step => inner_count cfg step = 3%Z) (outer_steps cfg)).
  { apply Forall_forall. intros step Hin. apply in_outer_steps in Hin.
    unfold inner_count. destruct (Z.leb_spec step 1800); [reflexivity | lia]. }
  induction Hall as [|step l Hs _ IH]; simpl; [reflexivity|].
  rewrite Hs, IH. simpl. lia.
Qed.

Section MoreRuns.

Variable E : collaborators.
Variable cfg : config.
Variable X : batch.

(** X2. Under the collaborators' contracts the score network is queried
    once per inner iteration: the sum over the included steps of 3 for a
    step [<= 1800] and of [n_steps_each] (none when it is not positive)
    otherwise.  With [num_classes <= 1801] that is 3 times the number of
    included steps, whatever [n_steps_each] is. *)
Theorem score_queries_per_batch (C idx : nat) (w : world) :
  well_shaped E cfg X C ->
  exists out w' calls,
    sample_batch E cfg idx X w = (Ok out, w') /\
    score_calls w' = score_calls w ++ calls /\
    length calls = query_count cfg /\
    ((num_classes cfg <= 1801)%Z ->
     length calls
     = (3 * (Z.to_nat (num_classes cfg) - Z.to_nat (start_iter cfg + 1)))%nat).
Proof.
  intros WS.
  destruct (score_queries_count idx w WS) as (out & w' & calls & Hrun & Hcalls & Hlab).
  exists out, w', calls. split; [exact Hrun|]. split; [exact Hcalls|].
  assert (Hlen : length calls = query_count cfg).
  { rewrite <- schedule_length, <- Hlab. now rewrite length_map. }
  split; [exact Hlen|].
  intros Hn. now rewrite Hlen, (query_count_small _ Hn), outer_steps_length.
Qed.

(** X3. Under the collaborators' contracts a batch takes one draw of the
    random stream for the initial candidate and one per inner iteration,
    returns a candidate of shape [batch, 2, H, W], and leaves the metrics
    and the files as they were. *)
Theorem sample_batch_effects (C idx : nat) (w : world) :
  well_shaped E cfg X C ->
  exists out w',
    sample_batch E cfg idx X w = (Ok out, w') /\
    shape out = xt_shape cfg /\
    rng w' = (rng w + 1 + query_count cfg)%nat /\
    ssim_scores w' = ssim_scores w /\
    psnr_scores w' = psnr_scores w /\
    files w' = files w.
Proof.
  intros WS.
  destruct (sample_batch_run idx w WS)
    as (xT & w' & tr & Hrun & HxT & Hext & Hsteps & _).
  destruct Hext as (e1 & _ & e3 & e4 & e5).
  eexists _, w'. split; [exact Hrun|]. split; [exact HxT|].
  split; [|tauto].
  rewrite e1, <- schedule_length, <- Hsteps, length_map. lia.
Qed.

(** X4. If the noise schedule has no sigma for the first included step,
    the batch raises [IndexError] right after the initial draw: the score
    network is never queried. *)
Theorem short_schedule_raises (idx : nat) (w : world) (step : Z) (rest : list Z) :
  outer_steps cfg = step :: rest ->
  (Z.of_nat (length (sigmas E)) <= step)%Z ->
  exists w',
    sample_batch E cfg idx X w = (Raise IndexError, w') /\
    rng w' = S (rng w) /\
    score_calls w' = score_calls w.
Proof.
  intros Hout Hlen.
  assert (Hidx : index (sigmas E) step = Raise IndexError).
  { unfold index. destruct (Z.ltb_spec step 0); [reflexivity|].
    destruct (nth_error (sigmas E) (Z.to_nat step)) eqn:Hn; [|reflexivity].
    assert (nth_error (sigmas E) (Z.to_nat step) <> None) by congruence.
    apply nth_error_Some in H0. lia. }
  unfold sample_batch, bind, randn, annealing_loop.
  rewrite (for_filter (fun s => (s <=? start_iter cfg)%Z)
             (step_body E cfg idx X (estimated_mvue_of E X))
             (range (num_classes cfg))).
  fold (outer_steps cfg). rewrite Hout. simpl. unfold bind at 1.
  unfold step_body, bind, lift. rewrite Hidx.
  destruct (step mod log_interval cfg =? 0)%Z; simpl; eexists; repeat split.
Qed.

End MoreRuns.

(** Witness for X2. *)
Lemma score_queries_per_batch_witness :
  exists out w' calls,
    sample_batch (stub all_writable) (scenario 1) 0 blank_batch fresh_world = (Ok out, w') /\
    score_calls w' = calls /\ length calls = 12%nat.
Proof.
  destruct (@score_queries_per_batch (stub all_writable) (scenario 1) blank_batch 1 0
              fresh_world (stub_well_shaped _ _))
    as (out & w' & calls & Hrun & Hcalls & _ & Hlen).
  exists out, w', calls. split; [exact Hrun|]. split; [exact Hcalls|].
  apply Hlen. simpl. lia.
Defined.

(** Witness for X3. *)
Lemma sample_batch_effects_witness :
  exists out w',
    sample_batch (stub all_writable) (scenario 1) 0 blank_batch fresh_world = (Ok out, w') /\
    rng w' = 13%nat /\ files w' = [].
Proof.
  destruct (@sample_batch_effects (stub all_writable) (scenario 1) blank_batch 1 0
              fresh_world (stub_well_shaped _ _))
    as (out & w' & Hrun & _ & Hrng & _ & _ & Hfiles).
  exists out, w'. split; [exact Hrun|]. split; assumption.
Defined.

(** Witness for X4: the scenario without a noise schedule. *)
Lemma short_schedule_raises_witness :
  exists w',
    sample_batch (with_sigmas (stub all_writable) []) (scenario 1) 0 blank_batch fresh_world
    = (Raise IndexError, w') /\
    score_calls w' = [].
Proof.
  destruct (@short_schedule_raises (with_sigmas (stub all_writable) []) (scenario 1)
              blank_batch 0 fresh_world 6%Z [7; 8; 9]%Z eq_refl)
    as (w' & Hrun & _ & Hcalls).
  - simpl. lia.
  - exists w'. split; assumption.
Defined.

(** * Further properties of the run *)

Section MoreSample.

Variable E : collaborators.
Variable cfg : config.

(** An invariant that draws, score queries and log lines do not disturb is
    kept by the sampling of a batch, raising or not. *)
Lemma sample_batch_frame (I : world -> Prop) idx X :
  (forall w, I w -> I (draw w)) ->
  (forall c w, I w -> I (record_call c w)) ->
  (forall l w, I w -> I (record_info l w)) ->
  keeps I (sample_batch E cfg idx X).
Proof.
  intros Hdraw Hcall Hinfo.
  assert (Hrandn : forall s, keeps I (randn E s)).
  { intros s w r w' HI Heq. injection Heq as _ <-. now apply Hdraw. }
  unfold sample_batch. apply keeps_bind; [apply Hrandn|].
  intros x0. apply keeps_bind; [|intros; apply keeps_ret].
  unfold annealing_loop. apply keeps_for. intros step x.
  unfold outer_body. destruct (step <=? start_iter cfg)%Z; [apply keeps_ret|].
  unfold step_body. apply keeps_bind.
  { destruct (step mod log_interval cfg =? 0)%Z; [|apply keeps_ret].
    intros w r w' HI Heq. injection Heq as _ <-. now apply Hinfo. }
  intros _. apply keeps_bind; [apply keeps_lift|]. intros sigma.
  apply keeps_bind; [apply keeps_lift|]. intros d0.
  apply keeps_bind; [apply keeps_lift|]. intros sigma_last.
  apply keeps_for. intros _ xt. unfold langevin_update.
  apply keeps_bind; [apply Hrandn|].
  intros z. apply keeps_bind.
  { intros w r w' HI Heq. injection Heq as _ <-. now apply Hcall. }
  intros p. apply keeps_bind; [apply keeps_lift|]. intros g. apply keeps_lift.
Qed.

Lemma keeps_write_file (I : world -> Prop) f :
  (forall w, I w -> I (record_file f w)) -> keeps I (write_file E f).
Proof.
  intros Hf w r w' HI. unfold write_file.
  destruct (writable E f); intros Heq; injection Heq as _ <-; auto.
Qed.

Lemma keeps_load_font (I : world -> Prop) : keeps I (load_font E).
Proof.
  intros w r w' HI. unfold load_font.
  destruct (font_available E); intros Heq; injection Heq as _ <-; exact HI.
Qed.

(** An invariant of the metrics that appending one SSIM and one PSNR score
    keeps, and that nothing else disturbs, is kept by [sample]. *)
Lemma sample_keeps_scores (I : world -> Prop) dataloader :
  (forall w, I w -> I (draw w)) ->
  (forall c w, I w -> I (record_call c w)) ->
  (forall l w, I w -> I (record_info l w)) ->
  (forall f w, I w -> I (record_file f w)) ->
  (forall a b w, I w -> I (record_scores a b w)) ->
  keeps I (sample E cfg dataloader).
Proof.
  intros Hdraw Hcall Hinfo Hfile Hscore. unfold sample.
  apply keeps_bind.
  - apply keeps_for. intros [idx X] u. unfold process_batch. simpl.
    apply keeps_bind; [now apply sample_batch_frame|].
    intros xt. apply keeps_for. intros i u'. unfold process_slice.
    apply keeps_bind; [apply keeps_lift|]. intros recon_img.
    apply keeps_bind; [apply keeps_lift|]. intros orig_img.
    apply keeps_bind; [apply keeps_lift|]. intros edited.
    apply keeps_bind.
    { intros w r w' HI Heq. injection Heq as _ <-. now apply Hscore. }
    intros _. unfold save_slice. destruct (save_images cfg); [|apply keeps_ret].
    apply keeps_bind; [apply keeps_lift|]. intros slice.
    apply keeps_bind; [apply keeps_write_file; auto|]. intros _.
    apply keeps_bind; [apply keeps_load_font|]. intros _.
    apply keeps_write_file; auto.
  - intros _ w r w' HI. unfold write_stats. apply (keeps_write_file I); auto.
Qed.

(** X5. Whatever the collaborators do, and whether [sample] returns or
    raises, the SSIM and PSNR lists stay of equal length and are only
    appended to: what they held before the run is a prefix of what they
    hold after it. *)
Theorem scores_append_only dataloader w r w' :
  length (ssim_scores w) = length (psnr_scores w) ->
  sample E cfg dataloader w = (r, w') ->
  length (ssim_scores w') = length (psnr_scores w') /\
  (exists l, ssim_scores w' = ssim_scores w ++ l) /\
  (exists l, psnr_scores w' = psnr_scores w ++ l).
Proof.
  intros Hlen Hrun.
  set (I := fun v : world =>
              length (ssim_scores v) = length (psnr_scores v) /\
              (exists l, ssim_scores v = ssim_scores w ++ l) /\
              (exists l, psnr_scores v = psnr_scores w ++ l)).
  apply (@sample_keeps_scores I dataloader) with (w := w) (r := r); trivial;
    unfold I; simpl; try tauto.
  - intros a b v (H1 & (l1 & H2) & (l2 & H3)). repeat split.
    + rewrite !length_app. simpl. lia.
    + exists (l1 ++ [a]). now rewrite H2, app_assoc.
    + exists (l2 ++ [b]). now rewrite H3, app_assoc.
  - repeat split; trivial; exists []; now rewrite app_nil_r.
Qed.

Lemma adds_keeps {A} (m : M A) :
  (forall n, keeps (fun w => length (ssim_scores w) = n) m) -> adds 0 m.
Proof.
  intros Hk w a w' Heq. rewrite Nat.add_0_r. eapply Hk; [reflexivity | exact Heq].
Qed.

Lemma adds_bind {A B} n1 n2 (m : M A) (k : A -> M B) :
  adds n1 m -> (forall a, adds n2 (k a)) -> adds (n1 + n2) (bind m k).
Proof.
  intros Hm Hk w b w'. unfold bind.
  destruct (m w) as [[a|e] w1] eqn:Hmw; [|discriminate].
  intros Heq. rewrite (Hk a _ _ _ Heq), (Hm _ _ _ Hmw). lia.
Qed.

Lemma adds_for {A St} n (l : list A) (body : A -> St -> M St) :
  (forall a s, adds n (body a s)) -> forall s, adds (n * length l) (for_ l body s).
Proof.
  intros Hb. induction l as [|a l IH]; intros s; simpl.
  - intros w x w' Heq. injection Heq as _ <-. lia.
  - replace (n * S (length l))%nat with (n + n * length l)%nat by lia.
    apply adds_bind; [apply Hb | exact IH].
Qed.

Lemma process_slice_adds X xt i u : adds 1 (process_slice E cfg X xt i u).
Proof.
  unfold process_slice.
  apply (@adds_bind _ _ 0 1); [apply adds_keeps; intros; apply keeps_lift|]. intros recon_img.
  apply (@adds_bind _ _ 0 1); [apply adds_keeps; intros; apply keeps_lift|]. intros orig_img.
  apply (@adds_bind _ _ 0 1); [apply adds_keeps; intros; apply keeps_lift|]. intros edited.
  apply (@adds_bind _ _ 1 0).
  { intros w a w' Heq. injection Heq as _ <-. simpl. now rewrite length_app. }
  intros _. apply adds_keeps. intros n.
  unfold save_slice. destruct (save_images cfg); [|apply keeps_ret].
  apply keeps_bind; [apply keeps_lift|]. intros slice.
  apply keeps_bind; [apply keeps_write_file; auto|]. intros _.
  apply keeps_bind; [apply keeps_load_font|]. intros _.
  apply keeps_write_file; auto.
Qed.

Lemma length_enumerate {A} (l : list A) : length (enumerate l) = length l.
Proof. unfold enumerate. rewrite length_combine, length_seq. lia. Qed.

(** X6. When [sample] returns, it has appended exactly one SSIM and one
    PSNR score per slice of every batch, [batch_size] per batch, and the
    last file written is stats.json holding these lists. *)
Theorem scores_per_slice dataloader w w' :
  length (ssim_scores w) = length (psnr_scores w) ->
  sample E cfg dataloader w = (Ok tt, w') ->
  length (ssim_scores w')
  = (length (ssim_scores w) + batch_size cfg * length dataloader)%nat /\
  length (psnr_scores w') = length (ssim_scores w') /\
  exists fs, files w' = fs ++ [StatsJson (ssim_scores w') (psnr_scores w')].
Proof.
  intros Hlen Hrun. split; [|split].
  - assert (Hadds : adds (batch_size cfg * length dataloader + 0) (sample E cfg dataloader)).
    { unfold sample. apply adds_bind.
      - rewrite <- (length_enumerate dataloader). apply adds_for.
        intros [idx X] u. unfold process_batch. simpl.
        apply (@adds_bind _ _ 0 (batch_size cfg)).
        + apply adds_keeps. intros n. now apply sample_batch_frame.
        + intros xt w0 a0 w0' Heq.
          rewrite (@adds_for _ _ 1 _ _ (fun i u' => process_slice_adds X xt i u') _ _ _ _ Heq).
          rewrite length_seq. lia.
      - intros _ w0 a0 w0'. unfold write_stats, write_file.
        destruct (writable E _); [|discriminate].
        intros Heq. injection Heq as _ <-. simpl. lia. }
    rewrite (Hadds _ _ _ Hrun). lia.
  - symmetry. exact (proj1 (scores_append_only _ _ Hlen Hrun)).
  - revert Hrun. unfold sample, bind.
    destruct (for_ _ _ _ _) as [[u|e] w1]; [|discriminate].
    unfold write_stats, write_file.
    destruct (writable E _); [|discriminate].
    intros Heq. injection Heq as <-. now exists (files w1).
Qed.

(** A slice that is processed and saved without a failure. *)
Lemma process_slice_saves X xt i w recon_img orig_img o r orig_np recon_np slice :
  magnitude_image E xt i = Ok recon_img ->
  reference_image E (mvue X) i = Ok orig_img ->
  edit E cfg orig_img recon_img = Ok (o, r, orig_np, recon_np) ->
  save_images cfg = true ->
  index (slice_idx X) (Z.of_nat i) = Ok slice ->
  writable E (OrigJpg slice) = true ->
  font_available E = true ->
  writable E (ReconJpg slice) = true ->
  process_slice E cfg X xt i tt w
  = (Ok tt,
     record_file (ReconJpg slice)
       (record_file (OrigJpg slice)
          (record_scores (ssim E orig_np recon_np) (psnr E orig_np recon_np) w))).
Proof.
  intros Hmag Href Hedit Hsave Hidx Hw Hfont Hw'.
  unfold process_slice, bind, lift. rewrite Hmag, Href, Hedit. simpl.
  unfold save_slice. rewrite Hsave. unfold bind, lift. rewrite Hidx.
  unfold write_file, load_font. rewrite Hw, Hfont, Hw'. reflexivity.
Qed.

(** A run over one batch of one slice in which nothing raises. *)
Lemma sample_single_slice_returns X w xt w1 w2 :
  batch_size cfg = 1%nat ->
  sample_batch E cfg 0 X w = (Ok xt, w1) ->
  process_slice E cfg X xt 0 tt w1 = (Ok tt, w2) ->
  writable E (StatsJson (ssim_scores w2) (psnr_scores w2)) = true ->
  sample E cfg [X] w
  = (Ok tt, record_file (StatsJson (ssim_scores w2) (psnr_scores w2)) w2).
Proof.
  intros HB Hrun Hslice Hw. unfold sample, bind.
  change (enumerate [X]) with [(0%nat, X)].
  unfold for_ at 1, bind, process_batch, bind. simpl fst. simpl snd.
  rewrite Hrun, HB. simpl seq. unfold for_, bind. rewrite Hslice.
  unfold ret, write_stats, write_file. rewrite Hw. reflexivity.
Qed.

(** X7. With [save_images] off the run writes no image: when [sample]
    returns, stats.json is the one file it has added; when it raises, it
    has added none. *)
Theorem no_images_without_save_images dataloader w r w' :
  save_images cfg = false ->
  sample E cfg dataloader w = (r, w') ->
  files w' = match r with
             | Ok _ => files w ++ [StatsJson (ssim_scores w') (psnr_scores w')]
             | Raise _ => files w
             end.
Proof.
  intros Hsave. unfold sample, bind.
  destruct (for_ _ _ _ _) as [[u|e] w1] eqn:Hfor.
  - assert (H1 : files w1 = files w).
    { eapply (@keeps_for (fun v => files v = files w)); [| reflexivity | exact Hfor].
      intros [idx X] u0. unfold process_batch. simpl.
      apply keeps_bind; [apply sample_batch_frame; auto|].
      intros xt. apply keeps_for. intros i u'. unfold process_slice.
      apply keeps_bind; [apply keeps_lift|]. intros recon_img.
      apply keeps_bind; [apply keeps_lift|]. intros orig_img.
      apply keeps_bind; [apply keeps_lift|]. intros edited.
      apply keeps_bind.
      { intros v r0 v' HI Heq. injection Heq as _ <-. exact HI. }
      intros _. unfold save_slice. rewrite Hsave. apply keeps_ret. }
    unfold write_stats, write_file.
    destruct (writable E _); intros Heq; injection Heq as <- <-; simpl;
      now rewrite H1.
  - intros Heq. injection Heq as <- <-.
    eapply (@keeps_for (fun v => files v = files w)); [| reflexivity | exact Hfor].
    intros [idx X] u0. unfold process_batch. simpl.
    apply keeps_bind; [apply sample_batch_frame; auto|].
    intros xt. apply keeps_for. intros i u'. unfold process_slice.
    apply keeps_bind; [apply keeps_lift|]. intros recon_img.
    apply keeps_bind; [apply keeps_lift|]. intros orig_img.
    apply keeps_bind; [apply keeps_lift|]. intros edited.
    apply keeps_bind.
    { intros v r0 v' HI Heq. injection Heq as _ <-. exact HI. }
    intros _. unfold save_slice. rewrite Hsave. apply keeps_ret.
Qed.

(** X8. When the font file of line 122 cannot be loaded, no annotated
    reconstruction is ever written, although [save_images] is on: a slice
    whose ground-truth image is saved then ends with [IOError], the
    ground-truth image staying behind on disk, and over a whole run no
    reconstruction image appears among the files. *)
Theorem missing_font_leaves_no_recon :
  font_available E = false ->
  (forall X xt i w recon_img orig_img o r orig_np recon_np slice,
      magnitude_image E xt i = Ok recon_img ->
      reference_image E (mvue X) i = Ok orig_img ->
      edit E cfg orig_img recon_img = Ok (o, r, orig_np, recon_np) ->
      save_images cfg = true ->
      index (slice_idx X) (Z.of_nat i) = Ok slice ->
      writable E (OrigJpg slice) = true ->
      process_slice E cfg X xt i tt w
      = (Raise IOError,
         record_file (OrigJpg slice)
           (record_scores (ssim E orig_np recon_np) (psnr E orig_np recon_np) w))) /\
  (forall dataloader w r w',
      no_recon w -> sample E cfg dataloader w = (r, w') -> no_recon w').
Proof.
  intros Hfont. split.
  - intros X xt i w recon_img orig_img o r orig_np recon_np slice
           Hmag Href Hedit Hsave Hidx Hw.
    unfold process_slice, bind, lift. rewrite Hmag, Href, Hedit. simpl.
    unfold save_slice. rewrite Hsave. unfold bind, lift. rewrite Hidx.
    unfold write_file, load_font. rewrite Hw, Hfont. reflexivity.
  - intros dataloader w r w' HI. revert w r w' HI.
    change (keeps no_recon (sample E cfg dataloader)).
    assert (Hf : forall f, (forall s, f <> ReconJpg s) ->
                           forall v, no_recon v -> no_recon (record_file f v)).
    { intros f Hne v Hv s. simpl. rewrite in_app_iff. intros [Hin | [Heq | []]].
      - exact (Hv s Hin).
      - exact (Hne s Heq). }
    unfold sample. apply keeps_bind.
    + apply keeps_for. intros [idx X] u. unfold process_batch. simpl.
      apply keeps_bind; [apply sample_batch_frame; auto|].
      intros xt. apply keeps_for. intros i u'. unfold process_slice.
      apply keeps_bind; [apply keeps_lift|]. intros recon_img.
      apply keeps_bind; [apply keeps_lift|]. intros orig_img.
      apply keeps_bind; [apply keeps_lift|]. intros edited.
      apply keeps_bind.
      { intros v r0 v' Hv Heq. injection Heq as _ <-. exact Hv. }
      intros _. unfold save_slice. destruct (save_images cfg); [|apply keeps_ret].
      apply keeps_bind; [apply keeps_lift|]. intros slice.
      apply keeps_bind.
      { apply keeps_write_file. apply Hf. discriminate. }
      intros _ v r0 v' Hv. unfold bind, load_font. rewrite Hfont.
      intros Heq. injection Heq as _ <-. exact Hv.
    + intros _ v r0 v' Hv. unfold write_stats.
      apply (@keeps_write_file no_recon); [|exact Hv].
      apply Hf. discriminate.
Qed.

End MoreSample.

(** A run of the scenario on 8 x 8 images, over one blank batch, in which
    every file can be written. *)
Lemma scenario_run_returns :
  exists w',
    sample (stub8 all_writable) (scenario8 1) [blank_batch8] fresh_world = (Ok tt, w').
Proof.
  destruct (@sample_batch_run (stub8 all_writable) (scenario8 1) blank_batch8 1 0
              fresh_world (stub8_well_shaped _ _))
    as (xT & w1 & tr & Hrun & _).
  eexists.
  eapply sample_single_slice_returns; [reflexivity | exact Hrun | | reflexivity].
  eapply process_slice_saves; reflexivity.
Qed.

(** X5 at the scenario whose first image cannot be written. *)
Lemma scores_append_only_witness :
  exists r w',
    sample (stub no_orig_jpg) (scenario 1) [blank_batch] fresh_world = (r, w') /\
    length (ssim_scores w') = length (psnr_scores w').
Proof.
  destruct (sample (stub no_orig_jpg) (scenario 1) [blank_batch] fresh_world)
    as [r w'] eqn:Hs.
  exists r, w'. split; [reflexivity|].
  exact (proj1 (@scores_append_only (stub no_orig_jpg) (scenario 1)
                  [blank_batch] fresh_world r w' eq_refl Hs)).
Defined.

(** X6 at the scenario on 8 x 8 images in which every file can be
    written. *)
Lemma scores_per_slice_witness :
  exists w',
    sample (stub8 all_writable) (scenario8 1) [blank_batch8] fresh_world = (Ok tt, w') /\
    length (ssim_scores w') = 1%nat.
Proof.
  destruct scenario_run_returns as (w' & Hs).
  exists w'. split; [exact Hs|].
  exact (proj1 (@scores_per_slice (stub8 all_writable) (scenario8 1)
                  [blank_batch8] fresh_world w' eq_refl Hs)).
Defined.

(** X7 at the scenario with [save_images] off. *)
Lemma no_images_without_save_images_witness :
  exists r w',
    sample (stub all_writable) (without_images (scenario 1)) [blank_batch] fresh_world
    = (r, w') /\
    files w' = match r with
               | Ok _ => [StatsJson (ssim_scores w') (psnr_scores w')]
               | Raise _ => []
               end.
Proof.
  destruct (sample (stub all_writable) (without_images (scenario 1)) [blank_batch]
              fresh_world) as [r w'] eqn:Hs.
  exists r, w'. split; [reflexivity|].
  exact (@no_images_without_save_images (stub all_writable)
           (without_images (scenario 1)) [blank_batch] fresh_world r w' eq_refl Hs).
Defined.

(** X8 at the scenario without the font file. *)
Lemma missing_font_leaves_no_recon_witness :
  exists r w',
    sample (without_font (stub all_writable)) (scenario 1) [blank_batch] fresh_world
    = (r, w') /\
    no_recon w'.
Proof.
  destruct (sample (without_font (stub all_writable)) (scenario 1) [blank_batch]
              fresh_world) as [r w'] eqn:Hs.
  exists r, w'. split; [reflexivity|].
  apply (proj2 (@missing_font_leaves_no_recon (without_font (stub all_writable))
                  (scenario 1) eq_refl) [blank_batch] fresh_world r w'); [|exact Hs].
  intros s [].
Defined.

(** * Further properties of [edit] *)

(** [squeeze] keeps the entries and their order. *)
Lemma squeeze_reindex {A} (s : list nat) (f : list nat -> A) :
  map (fun i => f (unsqueeze_index s i))
      (indices (filter (fun d => negb (Nat.eqb d 1)) s))
  = map f (indices s).
Proof.
  revert f. induction s as [|d s IH]; intros f; [reflexivity|].
  simpl. destruct (Nat.eqb d 1) eqn:Hd; simpl.
  - apply Nat.eqb_eq in Hd. subst d. simpl. rewrite app_nil_r, map_map.
    rewrite <- (IH (fun j => f (0%nat :: j))). reflexivity.
  - generalize (seq 0 d). intros l. induction l as [|k l IHl]; [reflexivity|].
    simpl. rewrite !map_app, IHl. f_equal.
    rewrite !map_map. simpl.
    exact (IH (fun j => f (k :: j))).
Qed.

Lemma entries_squeeze {A} (t : tensor A) : entries (squeeze t) = entries t.
Proof. unfold entries, squeeze. simpl. apply squeeze_reindex. Qed.

Lemma tmax_entries t :
  tmax t = match entries t with
           | [] => Raise ValueError
           | x :: l => Ok (fold_left fmax l x)
           end.
Proof. reflexivity. Qed.

Lemma tmax_squeeze t : tmax (squeeze t) = tmax t.
Proof. now rewrite !tmax_entries, entries_squeeze. Qed.

Lemma fold_fmax_nan l : fold_left fmax l NaN = NaN.
Proof. induction l as [|a l IH]; [reflexivity | exact IH]. Qed.

Lemma fold_fmax_fin (l : list R) (x : R) :
  fold_left fmax (map Fin l) (Fin x) = Fin (fold_left Rmax l x).
Proof. revert x. induction l as [|a l IH]; intros x; [reflexivity | apply IH]. Qed.

Lemma fold_fmax_Fin_inv l a m :
  fold_left fmax l a = Fin m ->
  exists x xs, a = Fin x /\ l = map Fin xs /\ m = fold_left Rmax xs x.
Proof.
  revert a. induction l as [|b l IH]; intros a H; simpl in H.
  - exists m, []. subst. repeat split.
  - destruct a as [x|]; [|simpl in H; now rewrite fold_fmax_nan in H].
    destruct b as [y|]; [|simpl in H; now rewrite fold_fmax_nan in H].
    simpl in H. destruct (IH _ H) as (x' & xs & Hx & -> & ->).
    injection Hx as <-. exists x, (y :: xs). repeat split.
Qed.

Lemma fold_Rmax_ge (l : list R) (x : R) :
  (x <= fold_left Rmax l x)%R /\ Forall (fun y => y <= fold_left Rmax l x)%R l.
Proof.
  revert x. induction l as [|a l IH]; intros x; simpl.
  - split; [lra | constructor].
  - destruct (IH (Rmax x a)) as [H1 H2].
    pose proof (Rmax_l x a). pose proof (Rmax_r x a).
    split; [lra|]. constructor; [lra | exact H2].
Qed.

Lemma fold_Rmax_in (l : list R) (x : R) : In (fold_left Rmax l x) (x :: l).
Proof.
  revert x. induction l as [|a l IH]; intros x; simpl.
  - now left.
  - destruct (IH (Rmax x a)) as [H|H].
    + unfold Rmax in H at 1. destruct (Rle_dec x a).
      * right. left. exact H.
      * left. exact H.
    + right. right. exact H.
Qed.

Lemma fold_Rmax_char (l : list R) (x M : R) :
  In M (x :: l) -> Forall (fun y => y <= M)%R (x :: l) -> fold_left Rmax l x = M.
Proof.
  intros Hin Hall.
  destruct (fold_Rmax_ge l x) as [H1 H2].
  pose proof (fold_Rmax_in l x) as H3.
  rewrite Forall_forall in Hall. apply Hall in H3.
  assert (M <= fold_left Rmax l x)%R.
  { destruct Hin as [<-|Hin]; [exact H1|].
    rewrite Forall_forall in H2. now apply H2. }
  lra.
Qed.

Lemma tmax_Fin_inv t m :
  tmax t = Ok (Fin m) ->
  exists x xs, entries t = map Fin (x :: xs) /\ m = fold_left Rmax xs x.
Proof.
  rewrite tmax_entries. destruct (entries t) as [|a l]; [discriminate|].
  intros H. injection H as H.
  destruct (fold_fmax_Fin_inv _ _ H) as (x & xs & -> & -> & ->).
  now exists x, xs.
Qed.

Lemma tmax_fin t x xs :
  entries t = map Fin (x :: xs) -> tmax t = Ok (Fin (fold_left Rmax xs x)).
Proof.
  intros H. rewrite tmax_entries, H. simpl. now rewrite fold_fmax_fin.
Qed.

Lemma tmax_ok_iff t : (exists m, tmax t = Ok m) <-> entries t <> [].
Proof.
  rewrite tmax_entries. destruct (entries t) as [|a l]; split.
  - intros (m & H). discriminate.
  - intros H. now contradiction H.
  - discriminate.
  - intros _. eexists. reflexivity.
Qed.

Lemma entries_threshold t c :
  entries (threshold t c) = map (fun x => if fle x c then Fin 0 else x) (entries t).
Proof. unfold threshold. apply entries_tmap. Qed.

Lemma fold_fmax_constant (c : R) (n : nat) :
  fold_left fmax (repeat (Fin c) n) (Fin c) = Fin c.
Proof.
  induction n as [|n IH]; [reflexivity|]. simpl.
  rewrite Rmax_left by lra. exact IH.
Qed.

(** The maximum of a constant image that has a pixel. *)
Lemma tmax_constant (s : list nat) (c : R) :
  indices s <> [] -> tmax (Tensor s (fun _ => Fin c)) = Ok (Fin c).
Proof.
  intros Hne. unfold tmax. cbn [shape at_].
  destruct (indices s) as [|i l]; [contradiction|]. simpl. f_equal.
  replace (map (fun _ : list nat => Fin c) l) with (repeat (Fin c) (length l)).
  - apply fold_fmax_constant.
  - induction l as [|j l IH]; [reflexivity|]. simpl. f_equal.
    apply IH. discriminate.
Qed.

Section MoreEdit.

Variable E : collaborators.
Variable cfg : config.

Lemma to_uint8_fin img m :
  tmax img = Ok m ->
  to_uint8 E img
  = Ok (tmap (astype_uint8 E) (tmuls (squeeze img) (fdiv (Fin 255) m))).
Proof.
  intros H. unfold to_uint8. rewrite tmax_squeeze, H. reflexivity.
Qed.

(** X9. For an image of finite, non-negative pixels of which one is
    positive, the scaling of lines 142-143 and 145-146 divides by a positive
    maximum, and every value handed to the 8-bit cast lies between 0 and
    255: the cast does not wrap around. *)
Theorem uint8_scaling_in_range (img : tensor fnum) (xs : list R) :
  entries img = map Fin xs ->
  Forall (fun x => 0 <= x)%R xs ->
  Exists (fun x => 0 < x)%R xs ->
  exists m ys,
    (0 < m)%R /\ In m xs /\
    let scaled := tmuls (squeeze img) (fdiv (Fin 255) (Fin m)) in
    to_uint8 E img = Ok (tmap (astype_uint8 E) scaled) /\
    entries scaled = map Fin ys /\
    Forall (fun y => 0 <= y <= 255)%R ys.
Proof.
  intros Hent Hpos Hex.
  destruct xs as [|x xs]; [inversion Hex|].
  set (m := fold_left Rmax xs x).
  destruct (fold_Rmax_ge xs x) as [Hx Hxs]. fold m in Hx, Hxs.
  assert (Hall : Forall (fun y => 0 <= y <= m)%R (x :: xs)).
  { rewrite Forall_forall in *. intros y Hy. split; [now apply Hpos|].
    destruct Hy as [<-|Hy]; [exact Hx | now apply Hxs]. }
  assert (Hm : (0 < m)%R).
  { apply Exists_exists in Hex. destruct Hex as (y & Hy & Hy0).
    rewrite Forall_forall in Hall. destruct (Hall y Hy). lra. }
  exists m, (map (fun y => y * (255 / m))%R (x :: xs)).
  split; [exact Hm|]. split; [apply fold_Rmax_in|].
  split; [|split].
  - apply to_uint8_fin. exact (@tmax_fin img _ _ Hent).
  - unfold tmuls. rewrite entries_tmap, entries_squeeze, Hent, !map_map.
    apply map_ext. intros a. rewrite fdiv_fin by lra. reflexivity.
  - rewrite Forall_map. revert Hall. apply Forall_impl. intros y [Hy0 Hym].
    assert (Hq : (0 < 255 / m)%R) by (apply Rdiv_lt_0_compat; lra).
    split.
    + apply Rmult_le_pos; lra.
    + replace 255%R with (m * (255 / m))%R at 2 by (field; lra).
      apply Rmult_le_compat_r; lra.
Qed.

(** X10. For an image whose largest pixel is 0, an all-black slice for
    one, nothing guards the division [255.0 / max]: the scaling returns, and
    every value handed to the 8-bit cast is non-finite. *)
Theorem black_image_scales_to_nan (img : tensor fnum) :
  tmax img = Ok (Fin 0) ->
  exists scaled,
    to_uint8 E img = Ok (tmap (astype_uint8 E) scaled) /\
    shape scaled = shape (squeeze img) /\
    all_nan scaled.
Proof.
  intros H. exists (tmuls (squeeze img) (fdiv (Fin 255) (Fin 0))).
  split; [exact (@to_uint8_fin img _ H)|]. split; [reflexivity|].
  intros i. change (fmul (at_ (squeeze img) i) (fdiv (Fin 255) (Fin 0)) = NaN).
  rewrite fdiv_zero. apply fmul_nan_r.
Qed.

Lemma threshold_keeps_max t m :
  tmax t = Ok (Fin m) -> (0 < m)%R ->
  tmax (threshold t (fmul (Fin (5 / 100)) (Fin m))) = Ok (Fin m).
Proof.
  intros Hmax Hm.
  destruct (@tmax_Fin_inv _ _ Hmax) as (x & xs & Hent & Hfold).
  set (thr := fun y : R => if Rle_dec y (5 / 100 * m) then 0%R else y).
  assert (Hent' : entries (threshold t (fmul (Fin (5 / 100)) (Fin m)))
                  = map Fin (thr x :: map thr xs)).
  { rewrite entries_threshold, Hent. simpl. f_equal.
    - unfold thr. destruct (Rle_dec x (5 / 100 * m)); reflexivity.
    - rewrite !map_map. apply map_ext. intros y. simpl. unfold thr.
      destruct (Rle_dec y (5 / 100 * m)); reflexivity. }
  rewrite (@tmax_fin _ _ _ Hent'). do 2 f_equal.
  apply fold_Rmax_char.
  - pose proof (fold_Rmax_in xs x) as Hin. rewrite <- Hfold in Hin.
    replace m with (thr m) at 1
      by (unfold thr; destruct (Rle_dec m (5 / 100 * m)); [lra | reflexivity]).
    change (thr x :: map thr xs) with (map thr (x :: xs)). now apply in_map.
  - destruct (fold_Rmax_ge xs x) as [Hx Hxs]. rewrite <- Hfold in Hx, Hxs.
    change (thr x :: map thr xs) with (map thr (x :: xs)).
    rewrite Forall_map. assert (Hall : Forall (fun y => y <= m)%R (x :: xs))
      by (constructor; assumption).
    revert Hall. apply Forall_impl. intros y Hy. unfold thr.
    destruct (Rle_dec y (5 / 100 * m)); lra.
Qed.

Lemma to_uint8_shape img out : to_uint8 E img = Ok out -> shape out = shape (squeeze img).
Proof.
  unfold to_uint8. destruct (tmax (squeeze img)); [|discriminate].
  intros Heq. injection Heq as <-. reflexivity.
Qed.

(** What [cv2] accepts, read off the squeezed reconstruction. *)
Lemma cv2_accepts_2d (recon_np : tensor Z) (s : list nat) :
  shape recon_np = s ->
  circle_mask cfg = false \/ (exists h w, s = [h; w]) ->
  cv2_accepts cfg recon_np = true.
Proof.
  intros Hs [Hoff | (h & w & H2)]; unfold cv2_accepts.
  - now rewrite Hoff.
  - rewrite Hs, H2. apply orb_true_r.
Qed.

Lemma cv2_rejects_3d (recon_np : tensor Z) (s : list nat) :
  shape recon_np = s -> circle_mask cfg = true -> (3 <= length s)%nat ->
  cv2_accepts cfg recon_np = false.
Proof.
  intros Hs Hon Hlen. unfold cv2_accepts. rewrite Hon, Hs. simpl.
  apply Nat.leb_gt. lia.
Qed.

(** X11. With [denoise_005] on, the thresholding of the ground truth
    leaves its largest pixel in place when that pixel is positive: for a
    reconstruction with at least one pixel that is a two-dimensional image
    once squeezed (or with [circle_mask] off), [edit] returns, and the
    ground truth is scaled by 255 over the maximum it had before the
    thresholding. *)
Theorem denoise_keeps_ground_truth_scale (orig_img recon_img : tensor fnum) (m : R) :
  denoise_005 cfg = true ->
  tmax orig_img = Ok (Fin m) ->
  (0 < m)%R ->
  entries recon_img <> [] ->
  circle_mask cfg = false \/ (exists h w, shape (squeeze recon_img) = [h; w]) ->
  let c := fmul (Fin (5 / 100)) (Fin m) in
  exists o r recon_np,
    edit E cfg orig_img recon_img
    = Ok (o, r,
          tmap (astype_uint8 E)
               (tmuls (squeeze (threshold orig_img c)) (fdiv (Fin 255) (Fin m))),
          recon_np).
Proof.
  intros Hden Hmax Hm Hrec H2d c.
  assert (Hr : exists m', tmax (threshold recon_img c) = Ok m').
  { apply tmax_ok_iff. rewrite entries_threshold.
    destruct (entries recon_img); [now contradiction Hrec | discriminate]. }
  destruct Hr as (m' & Hr).
  subst c. unfold edit. rewrite Hden, Hmax. cbn [rbind fst snd].
  rewrite (@to_uint8_fin _ _ (@threshold_keeps_max _ _ Hmax Hm)). cbn [rbind].
  rewrite (@to_uint8_fin _ _ Hr). cbn [rbind].
  rewrite cv2_accepts_2d with (s := shape (squeeze recon_img));
    [| reflexivity | exact H2d].
  eexists _, _, _. reflexivity.
Qed.

(** X12. For a reconstruction that is a two-dimensional image once
    squeezed, or with [circle_mask] off, [edit] returns exactly when both
    images have at least one pixel: on an image without pixels the maximum
    of lines 139-146 raises.  With [circle_mask] on, a reconstruction that
    keeps three axes or more when squeezed makes lines 150-152 raise
    [cv2.error], although both images have pixels. *)
Theorem edit_returns_iff_nonempty (orig_img recon_img : tensor fnum) :
  (circle_mask cfg = false \/ (exists h w, shape (squeeze recon_img) = [h; w]) ->
   ((exists v, edit E cfg orig_img recon_img = Ok v) <->
    entries orig_img <> [] /\ entries recon_img <> [])) /\
  (circle_mask cfg = true ->
   (3 <= length (shape (squeeze recon_img)))%nat ->
   entries orig_img <> [] -> entries recon_img <> [] ->
   edit E cfg orig_img recon_img = Raise CvError).
Proof.
  assert (Hthr : forall t c, entries (threshold t c) <> [] <-> entries t <> []).
  { intros t c. rewrite entries_threshold. destruct (entries t); simpl; split; congruence. }
  assert (Hu : forall t, (exists v, to_uint8 E t = Ok v) <-> entries t <> []).
  { intros t. rewrite <- tmax_ok_iff. unfold to_uint8. rewrite tmax_squeeze.
    destruct (tmax t); simpl; split; intros (v & H); try discriminate; eexists; reflexivity. }
  assert (Hrun : forall ok,
             entries orig_img <> [] -> entries recon_img <> [] ->
             (forall b, shape b = shape (squeeze recon_img) -> cv2_accepts cfg b = ok) ->
             if ok then exists v, edit E cfg orig_img recon_img = Ok v
             else edit E cfg orig_img recon_img = Raise CvError).
  { intros ok Ho Hr Hacc. unfold edit. destruct (denoise_005 cfg).
    - destruct (proj2 (tmax_ok_iff orig_img) Ho) as (m & Hm).
      rewrite Hm. cbn [rbind fst snd].
      destruct (proj2 (Hu (threshold orig_img (fmul (Fin (5 / 100)) m)))
                  (proj2 (Hthr _ _) Ho)) as (a & Ha).
      destruct (proj2 (Hu (threshold recon_img (fmul (Fin (5 / 100)) m)))
                  (proj2 (Hthr _ _) Hr)) as (b & Hb).
      rewrite Ha. cbn [rbind]. rewrite Hb. cbn [rbind].
      rewrite (Hacc b (to_uint8_shape _ Hb)).
      destruct ok; [eexists|]; reflexivity.
    - cbn [rbind fst snd].
      destruct (proj2 (Hu orig_img) Ho) as (a & Ha).
      destruct (proj2 (Hu recon_img) Hr) as (b & Hb).
      rewrite Ha. cbn [rbind]. rewrite Hb. cbn [rbind].
      rewrite (Hacc b (to_uint8_shape _ Hb)).
      destruct ok; [eexists|]; reflexivity. }
  split.
  - intros H2d. split.
    + intros (v & H). unfold edit in H. destruct (denoise_005 cfg).
      * destruct (tmax orig_img) as [m|e] eqn:Hm; [|discriminate].
        cbn [rbind fst snd] in H.
        destruct (to_uint8 E (threshold orig_img _)) as [a|e] eqn:Ha; [|discriminate].
        cbn [rbind] in H.
        destruct (to_uint8 E (threshold recon_img _)) as [b|e] eqn:Hb; [|discriminate].
        split.
        -- apply tmax_ok_iff. now exists m.
        -- eapply Hthr. apply Hu. exists b. eassumption.
      * cbn [rbind fst snd] in H.
        destruct (to_uint8 E orig_img) as [a|e] eqn:Ha; [|discriminate].
        cbn [rbind] in H.
        destruct (to_uint8 E recon_img) as [b|e] eqn:Hb; [|discriminate].
        split; apply Hu; eexists; eassumption.
    + intros [Ho Hr]. apply (Hrun true Ho Hr).
      intros b Hb. exact (cv2_accepts_2d _ Hb H2d).
  - intros Hon Hlen Ho Hr. apply (Hrun false Ho Hr).
    intros b Hb. exact (cv2_rejects_3d _ Hb Hon Hlen).
Qed.

End MoreEdit.

(** X9 at a one-pixel image. *)
Lemma uint8_scaling_in_range_witness :
  exists m ys,
    (0 < m)%R /\ In m [1%R] /\
    to_uint8 (stub all_writable) unit_image
    = Ok (tmap (astype_uint8 (stub all_writable))
               (tmuls (squeeze unit_image) (fdiv (Fin 255) (Fin m)))) /\
    entries (tmuls (squeeze unit_image) (fdiv (Fin 255) (Fin m))) = map Fin ys /\
    Forall (fun y => 0 <= y <= 255)%R ys.
Proof.
  apply (@uint8_scaling_in_range (stub all_writable) unit_image [1%R]).
  - reflexivity.
  - constructor; [lra | constructor].
  - constructor. lra.
Defined.

(** X10 at a black pixel. *)
Lemma black_image_scales_to_nan_witness :
  exists scaled,
    to_uint8 (stub all_writable) (Tensor [1; 1]%nat (fun _ => Fin 0))
    = Ok (tmap (astype_uint8 (stub all_writable)) scaled) /\
    shape scaled = shape (squeeze (Tensor [1; 1]%nat (fun _ => Fin 0))) /\
    all_nan scaled.
Proof.
  apply (@black_image_scales_to_nan (stub all_writable)
           (Tensor [1; 1]%nat (fun _ => Fin 0))).
  reflexivity.
Defined.

(** X11 at the scenario with [denoise_005] on, on 8 x 8 images. *)
Lemma denoise_keeps_ground_truth_scale_witness :
  exists o r recon_np,
    edit (stub all_writable) (with_denoise (scenario 1)) image8 image8
    = Ok (o, r,
          tmap (astype_uint8 (stub all_writable))
               (tmuls (squeeze (threshold image8 (fmul (Fin (5 / 100)) (Fin 1))))
                      (fdiv (Fin 255) (Fin 1))),
          recon_np).
Proof.
  apply (@denoise_keeps_ground_truth_scale (stub all_writable)
           (with_denoise (scenario 1)) image8 image8 1%R).
  - reflexivity.
  - apply tmax_constant. discriminate.
  - lra.
  - discriminate.
  - right. exists 8%nat, 8%nat. reflexivity.
Defined.

(** X12 at the scenario, on 8 x 8 images. *)
Lemma edit_returns_iff_nonempty_witness :
  exists v, edit (stub all_writable) (scenario 1) image8 image8 = Ok v.
Proof.
  apply (proj1 (@edit_returns_iff_nonempty (stub all_writable) (scenario 1)
                  image8 image8)).
  - right. exists 8%nat, 8%nat. reflexivity.
  - split; discriminate.
Defined.

(** * Further properties of the step size *)

Lemma index_map_Fin_inv (sg : list R) (k : Z) a :
  index (map Fin sg) k = Ok a -> exists x, a = Fin x /\ In x sg.
Proof.
  unfold index. destruct (k <? 0)%Z; [discriminate|].
  rewrite nth_error_map. destruct (nth_error sg (Z.to_nat k)) as [x|] eqn:Hn; [|discriminate].
  simpl. intros H. injection H as <-. exists x. split; [reflexivity|].
  eapply nth_error_In; eassumption.
Qed.

Lemma index_last_map_Fin_inv (sg : list R) a :
  index_last (map Fin sg) = Ok a -> exists x, a = Fin x /\ In x sg.
Proof.
  unfold index_last. rewrite <- map_rev.
  destruct (rev sg) as [|x l] eqn:Hr; [discriminate|].
  simpl. intros H. injection H as <-. exists x. split; [reflexivity|].
  apply in_rev. rewrite Hr. now left.
Qed.

Section MoreSteps.

Variable E : collaborators.
Variable cfg : config.

(** X13. Along a positive, strictly decreasing noise schedule and for a
    positive [step_lr], the step size of line 82 strictly decreases from one
    timestep to any later one, and it never falls below [step_lr]. *)
Theorem step_size_decreasing (sg : list R) (lr : R) (i j : nat) :
  sigmas E = map Fin sg ->
  Forall (fun x => 0 < x)%R sg ->
  (forall a b, (a < b < length sg)%nat -> (nth b sg 0%R < nth a sg 0%R)%R) ->
  step_lr cfg = Fin lr ->
  (0 < lr)%R ->
  (i < j < length sg)%nat ->
  exists a b,
    step_size_at E cfg (Z.of_nat i) = Ok (Fin a) /\
    step_size_at E cfg (Z.of_nat j) = Ok (Fin b) /\
    (lr <= b < a)%R.
Proof.
  intros Hs Hpos Hdec Hlr Hlr0 Hij.
  assert (Hne : sg <> []) by (intros ->; simpl in Hij; lia).
  set (sL := last sg 0%R).
  assert (HL : (0 < sL)%R).
  { rewrite Forall_forall in Hpos. apply Hpos. unfold sL.
    destruct (exists_last Hne) as (l & x & ->). rewrite last_last.
    apply in_or_app; right; left; reflexivity. }
  assert (Hstep : forall k, (k < length sg)%nat ->
            step_size_at E cfg (Z.of_nat k)
            = Ok (Fin (lr * ((nth k sg 0%R / sL) * (nth k sg 0%R / sL))))).
  { intros k Hk. unfold step_size_at, step_size_of. rewrite Hs, Hlr.
    rewrite index_map_Fin by lia. rewrite index_last_map_Fin by assumption.
    rewrite Nat2Z.id. simpl. fold sL.
    destruct (Req_EM_T sL 0); [lra | reflexivity]. }
  exists (lr * ((nth i sg 0%R / sL) * (nth i sg 0%R / sL)))%R,
         (lr * ((nth j sg 0%R / sL) * (nth j sg 0%R / sL)))%R.
  split; [apply Hstep; lia|]. split; [apply Hstep; lia|].
  assert (Hji : (nth j sg 0%R < nth i sg 0%R)%R) by (apply Hdec; lia).
  assert (HLj : (sL <= nth j sg 0%R)%R).
  { unfold sL. rewrite <- nth_last_R.
    destruct (Nat.eq_dec j (length sg - 1)) as [->|Hne']; [lra|].
    apply Rlt_le. apply Hdec. lia. }
  assert (Hinv : (0 < / sL)%R) by now apply Rinv_0_lt_compat.
  assert (Hqj : (1 <= nth j sg 0%R / sL)%R).
  { unfold Rdiv. replace 1%R with (sL * / sL)%R by (field; lra).
    apply Rmult_le_compat_r; lra. }
  assert (Hqi : (nth j sg 0%R / sL < nth i sg 0%R / sL)%R).
  { unfold Rdiv. apply Rmult_lt_compat_r; lra. }
  set (qi := (nth i sg 0%R / sL)%R) in *. set (qj := (nth j sg 0%R / sL)%R) in *.
  assert (H1 : (1 <= qj * qj)%R) by nra.
  assert (H2 : (qj * qj < qi * qi)%R) by nra.
  split.
  - replace lr with (lr * 1)%R at 1 by ring. apply Rmult_le_compat_l; lra.
  - apply Rmult_lt_compat_l; lra.
Qed.

End MoreSteps.

Section MorePoison.

Variable E : collaborators.
Variable cfg : config.
Variable X : batch.

(** An iteration with a negative step size. *)
Lemma iteration_nan_noise step k x x' s :
  iteration E cfg X step k x x' ->
  step_size_at E cfg step = Ok (Fin s) -> (s < 0)%R -> all_nan x'.
Proof.
  intros (ss & g & Hss & _ & Hf) Hs Hneg i.
  rewrite Hs in Hss. injection Hss as <-. cbv zeta in Hf.
  destruct (langevin_formula_at _ _ _ _ _ Hf i) as (ix & ip & im & ino & ->).
  unfold tmuls at 1. unfold tmap at 1. cbn [at_].
  replace (fsqrt (fmul (Fin s) (Fin 2))) with NaN.
  - now rewrite fmul_nan_r, fadd_nan_r.
  - simpl. destruct (Rlt_dec (s * 2) 0) as [_|Hn]; [reflexivity | lra].
Qed.

(** X14. With a negative [step_lr] the noise scale [np.sqrt(step_size * 2)]
    of line 85 is not a number: under the collaborators' contracts and for
    a positive noise schedule the batch is sampled without an error, and
    as soon as one inner iteration runs, every entry of the candidate it
    returns is non-finite. *)
Theorem negative_step_lr_poisons (C idx : nat) (w : world) (sg : list R) (lr : R) :
  well_shaped E cfg X C ->
  sigmas E = map Fin sg ->
  Forall (fun x => 0 < x)%R sg ->
  step_lr cfg = Fin lr ->
  (lr < 0)%R ->
  schedule cfg <> [] ->
  exists out w',
    sample_batch E cfg idx X w = (Ok out, w') /\ all_nan out.
Proof.
  intros WS Hs Hpos Hlr Hneg Hsch.
  destruct (sample_batch_run idx w WS)
    as (xT & w' & tr & Hrun & _ & _ & Hsteps & Hchain & _).
  exists (normalize E xT (estimated_mvue_of E X)), w'. split; [exact Hrun|].
  assert (HT : all_nan xT).
  { destruct tr as [|[step y] tr]; [simpl in Hsteps; congruence|].
    simpl in Hchain. destruct Hchain as (_ & x' & Hit & Hc).
    eapply chain_nan; [exact Hc|].
    destruct Hit as (ss & g & Hss & Hg & Hf).
    assert (Hss' := Hss). unfold step_size_at in Hss'. rewrite Hs in Hss'.
    destruct (index (map Fin sg) step) as [a|] eqn:Ha; [|discriminate].
    destruct (index_last (map Fin sg)) as [b|] eqn:Hb; [|discriminate].
    simpl in Hss'. injection Hss' as Hss'.
    destruct (index_map_Fin_inv _ _ Ha) as (xa & -> & Hina).
    destruct (index_last_map_Fin_inv _ Hb) as (xb & -> & Hinb).
    rewrite Forall_forall in Hpos.
    pose proof (Hpos _ Hina) as Hxa. pose proof (Hpos _ Hinb) as Hxb.
    unfold step_size_of in Hss'. rewrite Hlr, fdiv_fin in Hss' by lra.
    simpl in Hss'.
    eapply iteration_nan_noise with (s := (lr * (xa / xb * (xa / xb)))%R).
    - exists ss, g. repeat split; eassumption.
    - rewrite Hss. now rewrite <- Hss'.
    - assert (Hq : (0 < xa / xb)%R) by (apply Rdiv_lt_0_compat; lra).
      assert (Hq2 : (0 < xa / xb * (xa / xb))%R) by (apply Rmult_lt_0_compat; exact Hq).
      set (Q := (xa / xb * (xa / xb))%R) in *. nra. }
  intros i. unfold normalize. simpl. now rewrite HT.
Qed.

End MorePoison.

(** X13 at steps 6 and 7 of the scenario. *)
Lemma step_size_decreasing_witness :
  exists a b,
    step_size_at (stub all_writable) (scenario 1) 6 = Ok (Fin a) /\
    step_size_at (stub all_writable) (scenario 1) 7 = Ok (Fin b) /\
    (1 <= b < a)%R.
Proof.
  apply (@step_size_decreasing (stub all_writable) (scenario 1) sigmas10 1 6 7).
  - reflexivity.
  - unfold sigmas10. repeat constructor; lra.
  - intros a b Hab. unfold sigmas10 in *. simpl in Hab.
    do 10 (destruct a as [|a];
           [do 10 (destruct b as [|b]; [try lia; simpl; lra|]); lia|]).
    lia.
  - reflexivity.
  - lra.
  - simpl. lia.
Defined.

(** X14 at the scenario with [step_lr = -1]. *)
Lemma negative_step_lr_poisons_witness :
  exists out w',
    sample_batch (stub all_writable) (scenario (-1)) 0 blank_batch fresh_world
    = (Ok out, w') /\
    all_nan out.
Proof.
  apply (@negative_step_lr_poisons (stub all_writable) (scenario (-1)) blank_batch
           1 0 fresh_world sigmas10 (-1)).
  - apply stub_well_shaped.
  - reflexivity.
  - unfold sigmas10. repeat constructor; lra.
  - reflexivity.
  - lra.
  - rewrite scenario_schedule. discriminate.
Defined.

(** * Further properties of the progress log *)

Lemma logs_keeps {A} (m : M A) :
  (forall c, keeps (fun w => info_log w = c) m) -> logs [] m.
Proof.
  intros Hk w a w' Heq. rewrite app_nil_r. eapply Hk; [reflexivity | exact Heq].
Qed.

Lemma logs_bind {A B} l1 l2 (m : M A) (k : A -> M B) :
  logs l1 m -> (forall a, logs l2 (k a)) -> logs (l1 ++ l2) (bind m k).
Proof.
  intros Hm Hk w b w'. unfold bind.
  destruct (m w) as [[a|e] w1] eqn:Hmw; [|discriminate].
  intros Heq. rewrite (Hk a _ _ _ Heq), (Hm _ _ _ Hmw). now rewrite app_assoc.
Qed.

Lemma logs_for {A St} (f : A -> list (nat * Z)) (l : list A) (body : A -> St -> M St) :
  (forall a s, logs (f a) (body a s)) -> forall s, logs (flat_map f l) (for_ l body s).
Proof.
  intros Hb. induction l as [|a l IH]; intros s; simpl.
  - intros w x w' Heq. injection Heq as _ <-. now rewrite app_nil_r.
  - apply logs_bind; [apply Hb | exact IH].
Qed.

Lemma flat_map_filters {A B} (p q : A -> bool) (g : A -> B) (l : list A) :
  flat_map (fun a => if p a then [] else if q a then [g a] else []) l
  = map g (filter q (filter (fun a => negb (p a)) l)).
Proof.
  induction l as [|a l IH]; [reflexivity|]. simpl.
  destruct (p a); simpl; [exact IH|].
  destruct (q a); simpl; now rewrite IH.
Qed.

Section MoreLog.

Variable E : collaborators.
Variable cfg : config.
Variable X : batch.

Lemma outer_body_logs idx est step xt :
  logs (if (step <=? start_iter cfg)%Z then []
        else if (step mod log_interval cfg =? 0)%Z then [(idx, step)] else [])
       (outer_body E cfg idx X est step xt).
Proof.
  unfold outer_body. destruct (step <=? start_iter cfg)%Z.
  - intros w a w' Heq. injection Heq as _ <-. now rewrite app_nil_r.
  - unfold step_body.
    replace (if (step mod log_interval cfg =? 0)%Z then [(idx, step)] else [])
      with ((if (step mod log_interval cfg =? 0)%Z then [(idx, step)] else []) ++ [])
      by apply app_nil_r.
    apply logs_bind.
    + destruct (step mod log_interval cfg =? 0)%Z.
      * intros w a w' Heq. injection Heq as _ <-. reflexivity.
      * intros w a w' Heq. injection Heq as _ <-. now rewrite app_nil_r.
    + intros _. apply logs_keeps. intros c.
      apply keeps_bind; [apply keeps_lift|]. intros sigma.
      apply keeps_bind; [apply keeps_lift|]. intros d0.
      apply keeps_bind; [apply keeps_lift|]. intros sigma_last.
      apply keeps_for. intros _ x. unfold langevin_update.
      apply keeps_bind.
      { intros w r w' HI Heq. injection Heq as _ <-. exact HI. }
      intros z. apply keeps_bind.
      { intros w r w' HI Heq. injection Heq as _ <-. exact HI. }
      intros p. apply keeps_bind; [apply keeps_lift|]. intros g. apply keeps_lift.
Qed.

(** X15. Under the collaborators' contracts the sampling of a batch
    returns and has logged one progress line per outer step that is not
    skipped and is a multiple of the logging interval, in order and with
    the index of the batch; nothing else is added to these lines. *)
Theorem progress_lines (C idx : nat) (w : world) :
  well_shaped E cfg X C ->
  exists out w',
    sample_batch E cfg idx X w = (Ok out, w') /\
    info_log w' = info_log w ++ map (fun step => (idx, step)) (logged_steps cfg).
Proof.
  intros WS.
  destruct (sample_batch_run idx w WS) as (xT & w' & tr & Hrun & _).
  eexists _, w'. split; [exact Hrun|].
  assert (Hlogs : logs (map (fun step => (idx, step)) (logged_steps cfg))
                       (sample_batch E cfg idx X)).
  { unfold sample_batch.
    change (map (fun step => (idx, step)) (logged_steps cfg))
      with ([] ++ map (fun step => (idx, step)) (logged_steps cfg)).
    apply logs_bind.
    - intros v a v' Heq. injection Heq as _ <-. now rewrite app_nil_r.
    - intros x0.
      rewrite <- (app_nil_r (map _ (logged_steps cfg))).
      apply logs_bind.
      + unfold annealing_loop, logged_steps, outer_steps.
        rewrite <- (flat_map_filters (fun step => (step <=? start_iter cfg)%Z)
                      (fun step => (step mod log_interval cfg =? 0)%Z)
                      (fun step => (idx, step))).
        apply logs_for. intros step x. apply outer_body_logs.
      + intros x1 v a v' Heq. injection Heq as _ <-. now rewrite app_nil_r. }
  exact (Hlogs _ _ _ Hrun).
Qed.

End MoreLog.

(** X15 at the scenario: the logging interval is 1 and steps 6 to 9 are
    logged. *)
Lemma progress_lines_witness :
  exists out w',
    sample_batch (stub all_writable) (scenario 1) 0 blank_batch fresh_world = (Ok out, w') /\
    info_log w' = [(0%nat, 6%Z); (0%nat, 7%Z); (0%nat, 8%Z); (0%nat, 9%Z)].
Proof.
  exact (@progress_lines (stub all_writable) (scenario 1) blank_batch 1 0 fresh_world
           (stub_well_shaped _ _)).
Defined.

(** * Further properties of the display images *)

Lemma ravel_lt (s i : list nat) : Forall2 lt i s -> (ravel s i < numel s)%nat.
Proof.
  induction 1 as [|k d i s Hk _ IH]; simpl; [lia|]. nia.
Qed.

Lemma unravel_ravel (s i : list nat) : Forall2 lt i s -> unravel s (ravel s i) = i.
Proof.
  induction 1 as [|k d i s Hk Hf IH]; simpl; [reflexivity|].
  pose proof (ravel_lt Hf) as Hr.
  assert (HP : numel s <> 0%nat) by lia.
  rewrite Nat.div_add_l, Nat.div_small, Nat.add_0_r by assumption.
  rewrite Nat.add_comm, Nat.Div0.mod_add, Nat.mod_small by assumption.
  now rewrite IH.
Qed.

Section MoreDisplay.

Variable cfg : config.

Let B := batch_size cfg.
Let H := fst (image_size cfg).
Let W := snd (image_size cfg).

(** X16. For a candidate of shape [(batch_size, 2, H, W)] with a non-empty
    image and a slice [i] of the batch, lines 100-103 and 107 return an
    image of shape [(1, H, W)] whose pixel [(h, w)] is the magnitude of the
    complex number held by the two channels of the candidate at row
    [H - 1 - h] and column [w] of slice [i]: the magnitude image, flipped
    upside down.  The reshape to [(-1, H, W, 2)] moves no entry. *)
Theorem recon_slice_entries (xt : tensor fnum) (i : nat) :
  shape xt = xt_shape cfg ->
  (0 < H)%nat -> (0 < W)%nat -> (i < B)%nat ->
  exists r,
    recon_slice cfg xt i = Ok r /\
    shape r = [1%nat; H; W] /\
    forall h w, (h < H)%nat -> (w < W)%nat ->
      at_ r [0%nat; h; w]
      = cabs (at_ xt [i; 0%nat; (H - 1 - h)%nat; w], at_ xt [i; 1%nat; (H - 1 - h)%nat; w]).
Proof.
  intros Hsh HH HW Hi.
  unfold recon_slice, to_display, permute_0231. rewrite Hsh. unfold xt_shape.
  fold B H W. cbn [rbind]. unfold reshape_m1. cbn [shape].
  assert (Hn : numel [B; H; W; 2%nat] = (B * numel [H; W; 2%nat])%nat) by reflexivity.
  assert (Hr : numel [H; W; 2%nat] <> 0%nat) by (simpl; nia).
  rewrite Hn. destruct (Nat.eqb_spec (numel [H; W; 2%nat]) 0) as [Hz|_]; [contradiction|].
  rewrite Nat.Div0.mod_mul, Nat.div_mul by assumption. cbn [Nat.eqb rbind].
  unfold view_as_complex. cbn [shape rev app rbind].
  unfold flip_m2. cbn [shape tmap rev app rbind].
  unfold select0. cbn [shape]. destruct (Nat.ltb_spec i B) as [_|Hge]; [|lia].
  cbn [rbind]. eexists. split; [reflexivity|]. split; [reflexivity|].
  intros h w Hh Hw. cbn [unsqueeze0 at_ tl tmap flip_index rev app].
  assert (Hflip : (H - 1 - h < H)%nat) by lia.
  rewrite !unravel_ravel by (repeat constructor; lia).
  reflexivity.
Qed.

End MoreDisplay.

(** X16 at a candidate of one pixel. *)
Lemma recon_slice_entries_witness :
  exists r,
    recon_slice (scenario 1) (Tensor [1; 2; 1; 1]%nat (fun _ => Fin 1)) 0 = Ok r /\
    shape r = [1; 1; 1]%nat /\
    at_ r [0; 0; 0]%nat = cabs (Fin 1, Fin 1).
Proof.
  destruct (@recon_slice_entries (scenario 1)
              (Tensor [1; 2; 1; 1]%nat (fun _ => Fin 1)) 0 eq_refl)
    as (r & Hr & Hs & Hat); try (simpl; lia).
  exists r. split; [exact Hr|]. split; [exact Hs|].
  apply (Hat 0%nat 0%nat); simpl; lia.
Defined.

(** * Properties of [edit] of [make_grid.py] *)

(** The floating-point comparison against 5% of the maximum, on integers. *)
Lemma threshold_pixel (x m : Z) :
  (if fle (Fin (IZR x)) (fmul (Fin (5 / 100)) (Fin (IZR m))) then 0%Z else x)
  = (if (20 * x <=? m)%Z then 0%Z else x).
Proof.
  unfold fle, fmul.
  destruct (Rle_dec (IZR x) (5 / 100 * IZR m)) as [Hle|Hgt];
    destruct (Z.leb_spec (20 * x) m) as [Hz|Hz]; try reflexivity; exfalso.
  - apply IZR_lt in Hz. rewrite mult_IZR in Hz. lra.
  - apply IZR_le in Hz. rewrite mult_IZR in Hz. lra.
Qed.

Section MoreGrid.

Variable E : collaborators.

(** X17. [edit] of [make_grid.py], on a ground truth with at least one
    pixel and a reconstruction that is two-dimensional once squeezed: both
    images are thresholded against 5% of the maximum of the ground truth,
    a pixel [x] being zeroed exactly when [20 * x <= max]; nothing is
    rescaled; the ground-truth array holds the thresholded pixels, and the
    reconstruction array holds the thresholded pixel where [cv2.circle]
    painted the mask and 0 elsewhere, whatever the configuration. *)
Theorem grid_edit_pixels (orig_img recon_img : tensor Z) (m : Z) (H W : nat) :
  MakeGrid.zmax orig_img = Ok m ->
  shape (squeeze recon_img) = [H; W] ->
  exists o r orig_np recon_np,
    MakeGrid.edit E orig_img recon_img = Ok (o, r, orig_np, recon_np) /\
    (forall i, at_ o i = if (20 * at_ orig_img i <=? m)%Z then 0%Z else at_ orig_img i) /\
    (forall i, at_ r i = if (20 * at_ recon_img i <=? m)%Z then 0%Z else at_ recon_img i) /\
    entries orig_np = entries o /\
    shape recon_np = [H; W] /\
    forall y x, at_ recon_np [y; x]
                = if cv2_circle E (192, 192)%Z 165%Z (Z.of_nat x) (Z.of_nat y)
                  then at_ (squeeze r) [y; x] else 0%Z.
Proof.
  intros Hm Hs. unfold MakeGrid.edit. rewrite Hm. cbn [rbind].
  eexists _, _, _, _. split; [reflexivity|].
  split; [|split; [|split; [|split]]].
  - intros i. apply threshold_pixel.
  - intros i. apply threshold_pixel.
  - apply entries_squeeze.
  - exact Hs.
  - intros y x. unfold bitwise_and. cbn [at_ circle_mask_image].
    destruct (cv2_circle E (192, 192)%Z 165%Z (Z.of_nat x) (Z.of_nat y)).
    + simpl (255 =? 0)%Z. cbv iota. apply Z.land_diag.
    + reflexivity.
Qed.

End MoreGrid.

(** X17 at two white 2 x 2 images. *)
Lemma grid_edit_pixels_witness :
  exists o r orig_np recon_np,
    MakeGrid.edit (stub all_writable)
      (Tensor [1; 2; 2]%nat (fun _ => 255%Z)) (Tensor [1; 2; 2]%nat (fun _ => 255%Z))
    = Ok (o, r, orig_np, recon_np) /\
    shape recon_np = [2; 2]%nat /\
    at_ o [0; 0; 0]%nat = 255%Z.
Proof.
  destruct (@grid_edit_pixels (stub all_writable)
              (Tensor [1; 2; 2]%nat (fun _ => 255%Z))
              (Tensor [1; 2; 2]%nat (fun _ => 255%Z)) 255 2 2 eq_refl eq_refl)
    as (o & r & orig_np & recon_np & Hrun & Ho & _ & _ & Hs & _).
  exists o, r, orig_np, recon_np. split; [exact Hrun|]. split; [exact Hs|].
  rewrite Ho. reflexivity.
Defined.
